(** * file2minio: upload orchestration over an S3-compatible store

    A shallow embedding of [config/config.py], [config/file_uploader.py] and
    [main.py].  Python methods that touch the storage client, the file
    system, the logger or the console are written in a state-and-exception
    monad over a [world]; every call that leaves the process is recorded in
    the world's [trace].  *)

From Stdlib Require Import ZArith String Ascii.
From stdpp Require Import base list strings gmap pretty.

Open Scope string_scope.
Open Scope list_scope.
Open Scope stdpp_scope.

(** ** Python strings *)

Module PyStr.

Definition chars (s : string) : list ascii := list_ascii_of_string s.
Definition of_chars (l : list ascii) : string := string_of_list_ascii l.

(** [s.replace(a, b)] for one-character [a] and [b]. *)
Fixpoint replace (a b : ascii) (s : string) : string :=
  match s with
  | EmptyString => EmptyString
  | String c s' => String (if Ascii.eqb c a then b else c) (replace a b s')
  end.

(** [c in s] for a character [c]. *)
Fixpoint contains (c : ascii) (s : string) : bool :=
  match s with
  | EmptyString => false
  | String d s' => Ascii.eqb d c || contains c s'
  end.

(** [s.endswith(t)]. *)
Definition endswith (s t : string) : bool :=
  bool_decide (prefix (reverse (chars t)) (reverse (chars s))).

(** [s.startswith(t)]. *)
Definition startswith (s t : string) : bool :=
  bool_decide (prefix (chars t) (chars s)).

(** Truthiness of a string: [bool(s)]. *)
Definition truthy (s : string) : bool :=
  match s with EmptyString => false | _ => true end.

(** [sep.join(parts)]. *)
Fixpoint join (sep : string) (parts : list string) : string :=
  match parts with
  | [] => ""
  | [p] => p
  | p :: rest => p +:+ sep +:+ join sep rest
  end.

(** [s.split(sep, 1)]: at most one cut, at the first separator. *)
Fixpoint split1_go (sep : ascii) (cur : list ascii) (s : string) : list string :=
  match s with
  | EmptyString => [of_chars (reverse cur)]
  | String c s' =>
      if Ascii.eqb c sep then [of_chars (reverse cur); s']
      else split1_go sep (c :: cur) s'
  end.
Definition split1 (sep : ascii) (s : string) : list string := split1_go sep [] s.

Definition last_char (s : string) : option ascii := last (chars s).

End PyStr.

Definition backslash : ascii := "\"%char.
Definition slash : ascii := "/"%char.

(** ** Exceptions

    The members of Python's [Exception] class that the program can meet:
    the SDK's [S3Error] (a server-side error response), [ValueError]
    (raised by tuple unpacking and by the SDK's argument checks), and every
    other [Exception] subclass (transport errors of the HTTP layer,
    [OSError] from the file system, ...), each with its message. The
    signals of the interpreter that are no [Exception] ([KeyboardInterrupt],
    [SystemExit]) are not errors of a call and are not modelled. *)

Inductive exn : Type :=
  | S3Error (msg : string)
  | ValueError (msg : string)
  | OtherException (cls msg : string).

Definition str_exn (e : exn) : string :=
  match e with
  | S3Error m => m
  | ValueError m => m
  | OtherException _ m => m
  end.

Definition is_S3Error (e : exn) : bool :=
  match e with S3Error _ => true | _ => false end.

(** ** The world outside the process *)

(** A file-system object: a regular file with its size and whether the
    process may read it, or a directory with its entries as [os.scandir]
    lists them. The [fs] of a world maps a path, as the program spells it,
    to the object the operating system finds there. *)
#[local] Set Warnings "-register-all".
Inductive node : Type :=
  | File (size : Z) (readable : bool)
  | Dir (entries : list (string * node)).

Inductive level : Type := INFO | WARNING | ERROR.

(** Calls that leave the process. *)
Inductive event : Type :=
  | EvValidate (path : string)                 (* utils.validate_file_path *)
  | EvGetSize (path : string)                  (* utils.get_file_size *)
  | EvBucketExists (bucket : string)           (* client.bucket_exists *)
  | EvMakeBucket (bucket : string)             (* client.make_bucket *)
  | EvPut (bucket key path : string)           (* client.fput_object *)
  | EvLog (lv : level) (msg : string)          (* logger.info/warning/error *)
  | EvPrint (msg : string).                    (* print *)

(** Host path convention: [os.path] is [posixpath] or [ntpath]. *)
Inductive flavour : Type := posix | nt.

Record date : Type := { year : Z; month : Z; day : Z }.

Record world : Type := {
  os_name : flavour;
  getcwd : string;                             (* os.getcwd() *)
  environ : gmap string string;                (* os.environ after load_dotenv *)
  fs : gmap string node;                       (* what a path names, if anything *)
  today : date;                                (* the local date of the clock *)
  init_fault : option exn;                     (* outcome of building the client *)
  buckets : gset string;                       (* the store's buckets *)
  objects : gmap (string * string) string;     (* (bucket, key) to the file put there *)
  faults : list (option exn);                  (* fault, if any, of each coming I/O call *)
  trace : list event                           (* calls made so far, oldest first *)
}.

Definition set_buckets (f : gset string → gset string) (w : world) : world :=
  {| os_name := os_name w; getcwd := getcwd w; environ := environ w; fs := fs w; today := today w;
     init_fault := init_fault w; buckets := f (buckets w); objects := objects w;
     faults := faults w; trace := trace w |}.

Definition set_objects (f : gmap (string * string) string → gmap (string * string) string)
    (w : world) : world :=
  {| os_name := os_name w; getcwd := getcwd w; environ := environ w; fs := fs w; today := today w;
     init_fault := init_fault w; buckets := buckets w; objects := f (objects w);
     faults := faults w; trace := trace w |}.

Definition set_faults (f : list (option exn) → list (option exn)) (w : world) : world :=
  {| os_name := os_name w; getcwd := getcwd w; environ := environ w; fs := fs w; today := today w;
     init_fault := init_fault w; buckets := buckets w; objects := objects w;
     faults := f (faults w); trace := trace w |}.

Definition set_trace (f : list event → list event) (w : world) : world :=
  {| os_name := os_name w; getcwd := getcwd w; environ := environ w; fs := fs w; today := today w;
     init_fault := init_fault w; buckets := buckets w; objects := objects w;
     faults := faults w; trace := f (trace w) |}.

Definition nl : string := String (ascii_of_nat 10) "".

(** ** Computations: state passing with exceptions *)

Inductive outcome (A : Type) : Type :=
  | Return (a : A)
  | Raise (e : exn).
Arguments Return {A} a.
Arguments Raise {A} e.

Definition M (A : Type) : Type := world → outcome A * world.

Definition ret {A} (a : A) : M A := fun w => (Return a, w).
Definition raise {A} (e : exn) : M A := fun w => (Raise e, w).

Definition bind {A B} (m : M A) (k : A → M B) : M B := fun w =>
  match m w with
  | (Return a, w') => k a w'
  | (Raise e, w') => (Raise e, w')
  end.

#[global] Instance M_ret : MRet M := @ret.
#[global] Instance M_bind : MBind M := fun A B k m => bind m k.

Definition get_world : M world := fun w => (Return w, w).
Definition modify (f : world → world) : M unit := fun w => (Return (), f w).

(** [try: body  except C1 as e: h1  except C2 as e: h2 ...]: [handler e]
    is the body of the first clause whose class [e] belongs to, [None]
    when no clause matches and [e] propagates. *)
Definition try_except {A} (body : M A) (handler : exn → option (M A)) : M A := fun w =>
  match body w with
  | (Return a, w') => (Return a, w')
  | (Raise e, w') =>
      match handler e with
      | Some h => h w'
      | None => (Raise e, w')
      end
  end.

Definition emit (ev : event) : M unit := modify (set_trace (fun t => t ++ [ev])).

(** A call that performs I/O: it is recorded, and it fails when the world
    has a fault in store for it. *)
Definition io (ev : event) : M unit :=
  emit ev ;;
  w ← get_world ;
  match faults w with
  | [] => ret ()
  | None :: rest => modify (set_faults (fun _ => rest))
  | Some e :: rest => modify (set_faults (fun _ => rest)) ;; raise e
  end.

(** What a run added to the trace. *)
Definition new_events (w w' : world) : list event := drop (length (trace w)) (trace w').

(** ** [os.path] and [os.walk] *)

Module OsPath.

(** [str.lower] on the ASCII letters. *)
Definition lower_char (c : ascii) : ascii :=
  let n := nat_of_ascii c in
  if (65 <=? n)%nat && (n <=? 90)%nat then ascii_of_nat (n + 32) else c.
Fixpoint lower (s : string) : string :=
  match s with
  | EmptyString => EmptyString
  | String c s' => String (lower_char c) (lower s')
  end.

Definition sep (fl : flavour) : string :=
  match fl with posix => "/" | nt => "\" end.

Definition is_sep (fl : flavour) (c : ascii) : bool :=
  match fl with
  | posix => Ascii.eqb c slash
  | nt => Ascii.eqb c backslash || Ascii.eqb c slash
  end.

Definition ends_with_sep (fl : flavour) (p : string) : bool :=
  match PyStr.last_char p with
  | Some c => is_sep fl c
  | None => false
  end.

(** [ntpath.splitroot] on paths without a UNC prefix:
    (drive, root, rest). *)
Definition nt_splitroot (p : string) : string * string * string :=
  match p with
  | String c0 rest0 =>
      if is_sep nt c0 then ("", String c0 "", rest0)
      else
        match rest0 with
        | String c1 rest1 =>
            if Ascii.eqb c1 ":" then
              match rest1 with
              | String c2 rest2 =>
                  if is_sep nt c2 then (String c0 (String c1 ""), String c2 "", rest2)
                  else (String c0 (String c1 ""), "", rest1)
              | EmptyString => (String c0 (String c1 ""), "", "")
              end
            else ("", "", p)
        | EmptyString => ("", "", p)
        end
  | EmptyString => ("", "", "")
  end.

(** [os.path.join(a, b)]. *)
Definition join (fl : flavour) (a b : string) : string :=
  match fl with
  | posix =>
      if PyStr.startswith b "/" then b
      else if negb (PyStr.truthy a) || PyStr.endswith a "/" then a +:+ b
      else a +:+ "/" +:+ b
  | nt =>
      let '(a_drive, a_root, a_path) := nt_splitroot a in
      let '(b_drive, b_root, b_path) := nt_splitroot b in
      if PyStr.truthy b_root then
        (if PyStr.truthy b_drive || negb (PyStr.truthy a_drive) then b_drive else a_drive)
          +:+ b_root +:+ b_path
      else if PyStr.truthy b_drive && negb (String.eqb (lower b_drive) (lower a_drive)) then
        b_drive +:+ b_root +:+ b_path
      else
        let drive := if PyStr.truthy b_drive then b_drive else a_drive in
        let path :=
          (if PyStr.truthy a_path && negb (ends_with_sep nt a_path)
           then a_path +:+ "\" else a_path) +:+ b_path in
        drive +:+ a_root +:+ path
  end.

(** Cut a path at the host's separators. *)
Fixpoint components_go (fl : flavour) (cur : list ascii) (s : string) : list string :=
  match s with
  | EmptyString => [PyStr.of_chars (reverse cur)]
  | String c s' =>
      if is_sep fl c then PyStr.of_chars (reverse cur) :: components_go fl [] s'
      else components_go fl (c :: cur) s'
  end.
Definition components (fl : flavour) (s : string) : list string := components_go fl [] s.

Definition isabs (fl : flavour) (p : string) : bool :=
  match fl with
  | posix => PyStr.startswith p "/"
  | nt => let '(_, root, _) := nt_splitroot p in PyStr.truthy root
  end.

(** The component walk of [normpath] on an absolute path: empty and
    [.] components vanish, [..] removes the component before it. *)
Fixpoint collapse (done : list string) (todo : list string) : list string :=
  match todo with
  | [] => reverse done
  | c :: todo' =>
      if String.eqb c "" || String.eqb c "." then collapse done todo'
      else if String.eqb c ".." then collapse (tail done) todo'
      else collapse (c :: done) todo'
  end.

(** The non-empty components of [abspath(p)]. On [nt] the path is taken
    from [cwd], which gives a path without a drive the drive of [cwd];
    the drive is cut off by [splitroot] and stays in front as a component
    of its own, which [..] does not remove; a path with a drive and no
    root is taken from the root of its drive when the drive is not that
    of [cwd]. *)
Definition abs_components (fl : flavour) (cwd p : string) : list string :=
  match fl with
  | posix => collapse [] (components fl (if isabs fl p then p else join fl cwd p))
  | nt =>
      let '(drive, _, rest) := nt_splitroot (join fl cwd p) in
      (if PyStr.truthy drive then [drive] else []) ++ collapse [] (components fl rest)
  end.

Definition normcase (fl : flavour) (s : string) : string :=
  match fl with posix => s | nt => lower s end.

Fixpoint common (fl : flavour) (xs ys : list string) : nat :=
  match xs, ys with
  | x :: xs', y :: ys' =>
      if String.eqb (normcase fl x) (normcase fl y) then S (common fl xs' ys') else 0
  | _, _ => 0
  end.

(** [os.path.relpath(path, start)] for two paths of one drive, as the
    local path of a file and the directory it was found under are. *)
Definition relpath (fl : flavour) (cwd path start : string) : string :=
  let start_list := abs_components fl cwd start in
  let path_list := abs_components fl cwd path in
  let i := common fl start_list path_list in
  let rel_list := replicate (length start_list - i) ".." ++ drop i path_list in
  match rel_list with
  | [] => "."
  | _ => PyStr.join (sep fl) rel_list
  end.

Definition exists_ (w : world) (p : string) : bool :=
  bool_decide (is_Some (fs w !! p)).
Definition isdir (w : world) (p : string) : bool :=
  match fs w !! p with Some (Dir _) => true | _ => false end.
Definition isfile (w : world) (p : string) : bool :=
  match fs w !! p with Some (File _ _) => true | _ => false end.

(** [os.access(p, os.R_OK)]. *)
Definition access_R_OK (w : world) (p : string) : bool :=
  match fs w !! p with
  | Some (File _ readable) => readable
  | Some (Dir _) => true
  | None => false
  end.

Definition is_dir_entry (e : string * node) : bool :=
  match e.2 with Dir _ => true | File _ _ => false end.

(** [os.walk(top)], top-down: one triple (root, dirs, files) for [top]
    and then those of each sub-directory in turn. A [top] that cannot be
    listed yields nothing. *)
Fixpoint walk (fl : flavour) (top : string) (n : node) : list (string * list string * list string) :=
  match n with
  | File _ _ => []
  | Dir entries =>
      (top,
       (filter (fun e => is_dir_entry e = true) entries).*1,
       (filter (fun e => is_dir_entry e = false) entries).*1)
      :: (fix subdirs (es : list (string * node)) :=
            match es with
            | [] => []
            | (name, File _ _) :: es' => subdirs es'
            | (name, (Dir _) as d) :: es' => walk fl (join fl top name) d ++ subdirs es'
            end) entries
  end.

Definition os_walk (w : world) (top : string) : list (string * list string * list string) :=
  match fs w !! top with
  | Some n => walk (os_name w) top n
  | None => []
  end.

End OsPath.

(** ** [config/config.py] *)

Record MinIOConfig : Type := {
  endpoint : string;
  access_key : string;
  secret_key : string;
  cfg_bucket_name : string;
  secure : bool;
  cfg_base_upload_path : string
}.

(** [os.getenv(key, default)]. *)
Definition os_getenv (w : world) (key default : string) : string :=
  match environ w !! key with
  | Some v => v
  | None => default
  end.

(** [MinIOConfig.__init__]. *)
Definition minio_config (w : world) : MinIOConfig :=
  {| endpoint := os_getenv w "MINIO_ENDPOINT" "192.168.17.130:9000";
     access_key := os_getenv w "MINIO_ACCESS_KEY" "veefiIZOZyobBtbalUqN";
     secret_key := os_getenv w "MINIO_SECRET_KEY" "z3iSRyAHu0FwE3UbvcTqJ9zWUDIaukyeFG8n2MFH";
     cfg_bucket_name := os_getenv w "MINIO_BUCKET_NAME" "data";
     secure := String.eqb (OsPath.lower (os_getenv w "MINIO_SECURE" "false")) "true";
     cfg_base_upload_path := os_getenv w "BASE_UPLOAD_PATH" "" |}.

(** ** Logger, console and storage client *)

Definition logger_info (msg : string) : M unit := emit (EvLog INFO msg).
Definition logger_warning (msg : string) : M unit := emit (EvLog WARNING msg).
Definition logger_error (msg : string) : M unit := emit (EvLog ERROR msg).
(** [print] on a console that takes every text: the standard output is
    taken to be open and to encode what the program writes. On another
    console [print] raises, in the last handler of [main] too; that is
    outside of what is modelled here. *)
Definition print (msg : string) : M unit := emit (EvPrint msg).

(** The SDK client against the store of the world: [bucket_exists],
    [make_bucket] and [fput_object]. A call whose fault is due raises it
    and leaves the store as it was. The key names the object within its
    bucket: a put under a key that is taken replaces what was there. *)
Definition client_bucket_exists (bucket : string) : M bool :=
  io (EvBucketExists bucket) ;;
  w ← get_world ;
  ret (bool_decide (bucket ∈ buckets w)).

Definition client_make_bucket (bucket : string) : M unit :=
  io (EvMakeBucket bucket) ;;
  w ← get_world ;
  if bool_decide (bucket ∈ buckets w) then raise (S3Error "BucketAlreadyOwnedByYou")
  else modify (set_buckets (fun bs => {[bucket]} ∪ bs)).

Definition client_fput_object (bucket object_name file_path : string) : M unit :=
  io (EvPut bucket object_name file_path) ;;
  w ← get_world ;
  match fs w !! file_path with
  | Some (File _ true) =>
      if bool_decide (bucket ∈ buckets w)
      then modify (set_objects (fun os => <[(bucket, object_name) := file_path]> os))
      else raise (S3Error "NoSuchBucket")
  | _ => raise (OtherException "OSError" file_path)
  end.

(** ** The program *)

(** An item of a batch with the boolean its upload returned. *)
Abbreviation UploadOutcome := ((string * string) * bool)%type.

Section Program.

(** The digest of the key codec ("MD5 or equivalent fixed-length digest"
    of the relative path, spec 4.1), as text. *)
Variable md5_hexdigest : string → string.

(** [utils.format_file_size], which is not among the sources: the text of
    a size, used in one log line. *)
Variable format_file_size : Z → string.

(** *** [utils] *)

(** Modelled from the spec: [utils.validate_file_path] is not among the
    sources. The spec has the upload validate that the local path
    "exists and is a readable regular file"; it is a probe of the file
    system. *)
Definition validate_file_path (file_path : string) : M bool :=
  io (EvValidate file_path) ;;
  w ← get_world ;
  ret (OsPath.isfile w file_path && OsPath.access_R_OK w file_path).

(** Modelled from the spec: [utils.get_file_size] is not among the
    sources and the spec does not describe it; it is taken to ask the
    file system for the size of a file, and to fail where there is no
    file. *)
Definition get_file_size (file_path : string) : M Z :=
  io (EvGetSize file_path) ;;
  w ← get_world ;
  match fs w !! file_path with
  | Some (File size _) => ret size
  | _ => raise (OtherException "OSError" file_path)
  end.

(** The character of the last decimal digit of [d]. *)
Definition digit_char (d : Z) : ascii := ascii_of_nat (48 + Z.to_nat (d `mod` 10)).

(** Modelled from the spec: the partition segment of the key codec, the
    date "formatted as YYYYMMDD" (spec 4.1). *)
Definition partition_date (d : date) : string :=
  PyStr.of_chars
    [digit_char (year d / 1000); digit_char (year d / 100);
     digit_char (year d / 10); digit_char (year d);
     digit_char (month d / 10); digit_char (month d);
     digit_char (day d / 10); digit_char (day d)].

(** Modelled from the spec: the key codec "normalizes relativePath
    separators to forward slashes" (spec 4.1). *)
Definition normalize_separators (relative_path : string) : string :=
  PyStr.replace backslash slash relative_path.

(** Modelled from the spec: "the original file extension if present"
    (spec 4.1), taken as the text from the last dot of the last component
    to the end, and as nothing when that component has no dot. *)
Fixpoint extension_go (rev_chars : list ascii) (seen : list ascii) : list ascii :=
  match rev_chars with
  | [] => []
  | c :: rest =>
      if Ascii.eqb c "." then c :: seen
      else if Ascii.eqb c slash then []
      else extension_go rest (c :: seen)
  end.
Definition extension (path : string) : string :=
  PyStr.of_chars (extension_go (reverse (PyStr.chars path)) []).

(** Modelled from the spec: [utils.generate_minio_object_key] is not
    among the sources. Spec 4.1: normalise the separators of the
    relative path to forward slashes; the partition segment is the date
    as [YYYYMMDD]; the file name is the digest of the normalised relative
    path followed by the original extension if present; the key is
    [join(basePrefix?, partitionDate, hashedName[.ext])] without the
    prefix when it is empty. *)
Definition ComputeObjectKey (base_prefix relative_path : string) (now : date) : string :=
  let normalized := normalize_separators relative_path in
  let hashed_name := md5_hexdigest normalized +:+ extension normalized in
  PyStr.join "/"
    ((if PyStr.truthy base_prefix then [base_prefix] else [])
       ++ [partition_date now; hashed_name]).

(** The call of the source takes no date: the key codec reads the clock. *)
Definition generate_minio_object_key (base_path relative_path : string) : M string :=
  w ← get_world ;
  ret (ComputeObjectKey base_path relative_path (today w)).

(** *** [config/file_uploader.py] *)

Record MinIOFileUploader : Type := {
  bucket_name : string;
  base_upload_path : string
}.

(** [MinIOFileUploader.__init__]. *)
Definition MinIOFileUploader_init : M MinIOFileUploader :=
  try_except
    (w ← get_world ;
     let config := minio_config w in
     match init_fault w with
     | Some e => raise e
     | None =>
         logger_info ("MinIO客户端初始化成功，连接到: " +:+ endpoint config) ;;
         ret {| bucket_name := cfg_bucket_name config;
                base_upload_path := cfg_base_upload_path config |}
     end)
    (fun e => Some (logger_error ("MinIO客户端初始化失败: " +:+ str_exn e) ;; raise e)).

Definition ensure_bucket_exists (self : MinIOFileUploader) : M bool :=
  try_except
    (found ← client_bucket_exists (bucket_name self) ;
     (if negb found then
        client_make_bucket (bucket_name self) ;;
        logger_info ("存储桶 '" +:+ bucket_name self +:+ "' 创建成功")
      else
        logger_info ("存储桶 '" +:+ bucket_name self +:+ "' 已存在")) ;;
     ret true)
    (fun e =>
       match e with
       | S3Error _ => Some (logger_error ("存储桶操作失败: " +:+ str_exn e) ;; ret false)
       | _ => None
       end).

(** The [try] suite of [upload_file]. *)
Definition upload_file_try (self : MinIOFileUploader) (local_file_path relative_path : string)
    : M bool :=
  valid ← validate_file_path local_file_path ;
  if negb valid then
    logger_error ("文件不存在或不可读: " +:+ local_file_path) ;;
    ret false
  else
    object_key ← generate_minio_object_key (base_upload_path self) relative_path ;
    file_size ← get_file_size local_file_path ;
    logger_info "开始上传文件:" ;;
    logger_info ("  本地路径: " +:+ local_file_path) ;;
    logger_info ("  相对路径: " +:+ relative_path) ;;
    logger_info ("  MinIO键名: " +:+ object_key) ;;
    logger_info ("  文件大小: " +:+ format_file_size file_size) ;;
    client_fput_object (bucket_name self) object_key local_file_path ;;
    logger_info ("文件上传成功: " +:+ object_key) ;;
    ret true.

(** Its [except S3Error] and [except Exception] clauses. *)
Definition upload_file_except (e : exn) : option (M bool) :=
  match e with
  | S3Error _ => Some (logger_error ("MinIO上传失败: " +:+ str_exn e) ;; ret false)
  | _ => Some (logger_error ("文件上传异常: " +:+ str_exn e) ;; ret false)
  end.

Definition upload_file (self : MinIOFileUploader) (local_file_path relative_path : string)
    : M bool :=
  try_except (upload_file_try self local_file_path relative_path) upload_file_except.

(** The [results] dictionary of a batch. *)
Record results : Type := {
  total : nat;
  success : nat;
  failed : nat;
  failed_files : list (string * string)
}.

(** The [for] loop of [upload_files_batch] over the mappings left. *)
Fixpoint upload_files_loop (self : MinIOFileUploader)
    (file_mappings : list (string * string)) (res : results) : M results :=
  match file_mappings with
  | [] => ret res
  | (local_path, relative_path) :: rest =>
      ok ← upload_file self local_path relative_path ;
      if (ok : bool) then
        upload_files_loop self rest
          {| total := total res; success := success res + 1;
             failed := failed res; failed_files := failed_files res |}
      else
        upload_files_loop self rest
          {| total := total res; success := success res;
             failed := failed res + 1;
             failed_files := failed_files res ++ [(local_path, relative_path)] |}
  end.

Fixpoint for_each {A} (xs : list A) (body : A → M unit) : M unit :=
  match xs with
  | [] => ret ()
  | x :: xs' => body x ;; for_each xs' body
  end.

Definition upload_files_batch (self : MinIOFileUploader)
    (file_mappings : list (string * string)) : M results :=
  let res := {| total := length file_mappings; success := 0;
                failed := 0; failed_files := [] |} in
  logger_info ("开始批量上传 " +:+ pretty (total res) +:+ " 个文件") ;;
  res ← upload_files_loop self file_mappings res ;
  logger_info ("批量上传完成: 成功 " +:+ pretty (success res)
                 +:+ ", 失败 " +:+ pretty (failed res)) ;;
  (if (0 <? failed res)%nat then
     logger_warning "失败的文件:" ;;
     for_each (failed_files res)
       (fun '(local_path, relative_path) =>
          logger_warning ("  " +:+ local_path +:+ " -> " +:+ relative_path))
   else ret ()) ;;
  ret res.

(** The mapping [upload_directory] appends for one file of [root]. *)
Definition file_mapping (w : world) (directory_path base_relative_path root file : string)
    : string * string :=
  let local_path := OsPath.join (os_name w) root file in
  let rel_path := OsPath.relpath (os_name w) (getcwd w) local_path directory_path in
  let rel_path :=
    if PyStr.truthy base_relative_path
    then PyStr.replace backslash slash (OsPath.join (os_name w) base_relative_path rel_path)
    else rel_path in
  (local_path, rel_path).

(** The two nested [for] loops over [os.walk(directory_path)]. *)
Definition directory_mappings (w : world) (directory_path base_relative_path : string)
    : list (string * string) :=
  flat_map
    (fun '(root, dirs, files) =>
       map (file_mapping w directory_path base_relative_path root) files)
    (OsPath.os_walk w directory_path).

Definition upload_directory (self : MinIOFileUploader)
    (directory_path base_relative_path : string) : M results :=
  w ← get_world ;
  if negb (OsPath.isdir w directory_path) then
    logger_error ("目录不存在: " +:+ directory_path) ;;
    ret {| total := 0; success := 0; failed := 0; failed_files := [] |}
  else
    upload_files_batch self (directory_mappings w directory_path base_relative_path).

(** *** [main.py] *)

Definition report (res : results) : M unit :=
  print ("总文件数: " +:+ pretty (total res)) ;;
  print ("成功: " +:+ pretty (success res)) ;;
  print ("失败: " +:+ pretty (failed res)) ;;
  if (0 <? failed res)%nat then
    print (nl +:+ "失败的文件:") ;;
    for_each (failed_files res)
      (fun '(local_path, relative_path) =>
         print ("  " +:+ local_path +:+ " -> " +:+ relative_path))
  else ret ().

Definition upload_single_file (uploader : MinIOFileUploader)
    (file_path relative_path : string) : M bool :=
  print "正在上传单个文件..." ;;
  print ("本地路径: " +:+ file_path) ;;
  print ("相对路径: " +:+ relative_path) ;;
  ok ← upload_file uploader file_path relative_path ;
  (if (ok : bool) then print "文件上传成功!" else print "文件上传失败!") ;;
  ret ok.

Definition upload_multiple_files (uploader : MinIOFileUploader)
    (file_mappings : list (string * string)) : M bool :=
  print ("正在批量上传 " +:+ pretty (length file_mappings) +:+ " 个文件...") ;;
  res ← upload_files_batch uploader file_mappings ;
  print (nl +:+ "📊 上传结果统计:") ;;
  report res ;;
  ret (failed res =? 0)%nat.

Definition main_upload_directory (uploader : MinIOFileUploader)
    (dir_path base_relative : string) : M bool :=
  print ("正在上传目录: " +:+ dir_path) ;;
  (if PyStr.truthy base_relative then print ("基础相对路径: " +:+ base_relative)
   else ret ()) ;;
  res ← upload_directory uploader dir_path base_relative ;
  print (nl +:+ "📊 目录上传结果统计:") ;;
  report res ;;
  ret (failed res =? 0)%nat.

Inductive mode : Type := single | batch | directory.

(** The namespace [argparse] hands to [main]. *)
Record args : Type := {
  arg_mode : mode;
  arg_file : option string;
  arg_relative : option string;
  arg_directory : option string;
  arg_base_relative : string;
  arg_files : option (list string)
}.

(** [not x] for an optional string argument. *)
Definition absent (x : option string) : bool :=
  match x with
  | Some v => negb (PyStr.truthy v)
  | None => true
  end.

Definition value (x : option string) : string := default "" x.

(** [local_path, relative_path = file_mapping.split(':', 1)]. *)
Definition unpack_mapping (file_mapping : string) : M (string * string) :=
  match PyStr.split1 ":" file_mapping with
  | [local_path; relative_path] => ret (local_path, relative_path)
  | _ => raise (ValueError "not enough values to unpack (expected 2, got 1)")
  end.

(** How one turn of the loop over [args.files] ends: with the list to
    go on with, or with the value [main] returns at once. *)
Inductive turn : Type :=
  | GoOn (file_mappings : list (string * string))
  | ReturnNow (result : bool).

Definition collect_turn (file_mapping : string) (file_mappings : list (string * string))
    : M turn :=
  try_except
    ('(local_path, relative_path) ← unpack_mapping file_mapping ;
     w ← get_world ;
     if negb (OsPath.exists_ w local_path) then
       print ("文件不存在，跳过: " +:+ local_path) ;;
       ret (GoOn file_mappings)
     else
       ret (GoOn (file_mappings ++ [(local_path, relative_path)])))
    (fun e =>
       match e with
       | ValueError _ =>
           Some (print ("文件映射格式错误: " +:+ file_mapping) ;;
                 print "正确格式: local_path:relative_path" ;;
                 ret (ReturnNow false))
       | _ => None
       end).

(** The loop that builds [file_mappings] from [args.files]: [None] when
    [main] has returned [False] from inside it. *)
Fixpoint collect_mappings (files : list string) (file_mappings : list (string * string))
    : M (option (list (string * string))) :=
  match files with
  | [] => ret (Some file_mappings)
  | file_mapping :: rest =>
      t ← collect_turn file_mapping file_mappings ;
      match t with
      | GoOn file_mappings' => collect_mappings rest file_mappings'
      | ReturnNow _ => ret None
      end
  end.

Definition finish (ok : bool) : M bool :=
  (if ok then print (nl +:+ " 所有文件上传完成!") else print (nl +:+ "部分或全部文件上传失败")) ;;
  ret ok.

(** The branch [args.mode == 'single'] of [main], with the closing
    report of the run. *)
Definition single_mode (uploader : MinIOFileUploader) (a : args) : M bool :=
  if absent (arg_file a) || absent (arg_relative a) then
    print "单文件模式需要指定 --file 和 --relative 参数" ;;
    print "示例: python main.py --mode single --file /path/to/file.txt --relative documents/file.txt" ;;
    ret false
  else
    w ← get_world ;
    if negb (OsPath.exists_ w (value (arg_file a))) then
      print ("文件不存在: " +:+ value (arg_file a)) ;;
      ret false
    else
      ok ← upload_single_file uploader (value (arg_file a)) (value (arg_relative a)) ;
      finish ok.

(** The branch [args.mode == 'batch']. *)
Definition batch_mode (uploader : MinIOFileUploader) (a : args) : M bool :=
  match arg_files a with
  | None | Some [] =>
      print "批量模式需要指定 --files 参数" ;;
      print "示例: python main.py --mode batch --files /path/file1.txt:docs/file1.txt /path/file2.jpg:images/file2.jpg" ;;
      ret false
  | Some files =>
      collected ← collect_mappings files [] ;
      match collected with
      | None => ret false
      | Some [] =>
          print "没有有效的文件可上传" ;;
          ret false
      | Some file_mappings =>
          ok ← upload_multiple_files uploader file_mappings ;
          finish ok
      end
  end.

(** The branch [args.mode == 'directory']. *)
Definition directory_mode (uploader : MinIOFileUploader) (a : args) : M bool :=
  if absent (arg_directory a) then
    print "目录模式需要指定 --directory 参数" ;;
    print "示例: python main.py --mode directory --directory /path/to/directory --base-relative backup" ;;
    ret false
  else
    w ← get_world ;
    if negb (OsPath.isdir w (value (arg_directory a))) then
      print (" 目录不存在: " +:+ value (arg_directory a)) ;;
      ret false
    else
      ok ← main_upload_directory uploader (value (arg_directory a)) (arg_base_relative a) ;
      finish ok.

(** [main]. A [KeyboardInterrupt] is a signal to the process, not an
    [Exception], and has no place in [exn]; its handler is left out. *)
Definition main (a : args) : M bool :=
  try_except
    (print "初始化MinIO文件上传器..." ;;
     uploader ← MinIOFileUploader_init ;
     print "检查存储桶..." ;;
     ready ← ensure_bucket_exists uploader ;
     if negb ready then
       print "存储桶创建失败，程序退出" ;;
       ret false
     else
       match arg_mode a with
       | single => single_mode uploader a
       | batch => batch_mode uploader a
       | directory => directory_mode uploader a
       end)
    (fun e =>
       Some (print (nl +:+ "程序执行异常: " +:+ str_exn e) ;;
             logger_error "程序执行异常" ;;
             ret false)).

(** [sys.exit(0 if success else 1)]. *)
Definition exit_code (success : bool) : Z := if success then 0 else 1.

(** *** The result report of the specification *)

(** Spec 4.5: the counts and the failed items, in encounter order, of a
    sequence of outcomes. *)
Definition ResultReport (outcomes : list UploadOutcome) : results :=
  {| total := length outcomes;
     success := length (filter (fun o => o.2 = true) outcomes);
     failed := length (filter (fun o => o.2 = false) outcomes);
     failed_files := (filter (fun o => o.2 = false) outcomes).*1 |}.

(** What [upload_file] returns for each item when the items are taken in
    turn from the world [w]. *)
Fixpoint upload_outcomes (self : MinIOFileUploader) (items : list (string * string))
    (w : world) : list UploadOutcome :=
  match items with
  | [] => []
  | (local_path, relative_path) :: rest =>
      match upload_file self local_path relative_path w with
      | (Return ok, w') => ((local_path, relative_path), ok) :: upload_outcomes self rest w'
      | (Raise _, _) => []
      end
  end.

(** The mapping an entry of [--files] stands for: what is before and
    after its first colon, when it has one. *)
Definition mapping_of (file_mapping : string) : option (string * string) :=
  match PyStr.split1 ":" file_mapping with
  | [local_path; relative_path] => Some (local_path, relative_path)
  | _ => None
  end.

(** The mappings of the entries whose local path exists in [w]. *)
Definition existing_mappings (w : world) (files : list string) : list (string * string) :=
  filter (fun m => OsPath.exists_ w m.1 = true) (omap mapping_of files).

(** The world in which the loop of [upload_files_batch] starts. *)
Definition batch_start (items : list (string * string)) (w : world) : world :=
  (logger_info ("开始批量上传 " +:+ pretty (length items) +:+ " 个文件") w).2.

(** *** More of the program and of what it leaves in the store *)

(** [main] of [config/file_uploader.py], the usage example of the
    module: it builds the uploader and checks the bucket. *)
Definition file_uploader_main : M unit :=
  try_except
    (uploader ← MinIOFileUploader_init ;
     ready ← ensure_bucket_exists uploader ;
     if negb ready then
       logger_error "存储桶创建失败，程序退出" ;;
       ret ()
     else
       logger_info "请根据需要调用相应的上传方法")
    (fun e => Some (logger_error ("程序执行失败: " +:+ str_exn e))).

(** The branch of [main] for the mode of the arguments. *)
Definition dispatch (uploader : MinIOFileUploader) (a : args) : M bool :=
  match arg_mode a with
  | single => single_mode uploader a
  | batch => batch_mode uploader a
  | directory => directory_mode uploader a
  end.

(** The put [upload_file] makes for an item on the day [d]: the bucket
    and the key, and the local file that goes there. *)
Definition object_of (self : MinIOFileUploader) (d : date) (item : string * string)
    : string * string * string :=
  (bucket_name self, ComputeObjectKey (base_upload_path self) item.2 d, item.1).

(** The puts of the outcomes that are true, in order. *)
Definition stored (self : MinIOFileUploader) (d : date) (outcomes : list UploadOutcome)
    : list (string * string * string) :=
  omap (fun o : UploadOutcome => if o.2 then Some (object_of self d o.1) else None) outcomes.

(** A store after puts made one after the other: a later put under a
    key replaces an earlier one. *)
Definition put_all (os : gmap (string * string) string) (puts : list (string * string * string))
    : gmap (string * string) string :=
  foldl (fun m o => <[o.1 := o.2]> m) os puts.

End Program.

(** * Sample worlds *)

Module Samples.

(** A digest and a size format to run the program with. *)
Definition digest (s : string) : string :=
  "d41d8cd98f00b204e9800998ecf8427e".
Definition size_text (size : Z) : string := pretty size +:+ " B".

Definition uploader : MinIOFileUploader :=
  {| bucket_name := "data"; base_upload_path := "" |}.

(** A Linux host on 4 September 2025 whose store has the bucket. *)
Definition linux_host : world :=
  {| os_name := posix; getcwd := "/home/user"; environ := ∅;
     fs := {[ "/in/a.txt" := File 5 true;
              "/in/c.pdf" := File 7 true;
              "/in" := Dir [("a.txt", File 5 true); ("c.pdf", File 7 true)] ]};
     today := {| year := 2025; month := 9; day := 4 |};
     init_fault := None; buckets := {[ "data" ]}; objects := ∅;
     faults := []; trace := [] |}.


(** A Windows host with one file in a sub-directory of [data]. *)
Definition windows_host : world :=
  {| os_name := nt; getcwd := "C:\work"; environ := ∅;
     fs := {[ "data" := Dir [("sub", Dir [("a.txt", File 5 true)])];
              "data\sub\a.txt" := File 5 true ]};
     today := {| year := 2025; month := 9; day := 4 |};
     init_fault := None; buckets := {[ "data" ]}; objects := ∅;
     faults := []; trace := [] |}.

(** The same host when the store has lost the bucket, so that the upload
    of the file fails. *)
Definition windows_host_no_bucket : world := set_buckets (fun _ => ∅) windows_host.

(** A store that cannot be reached: the first call of the client ends
    in the exception of the HTTP layer. *)
Definition unreachable_store : world :=
  {| os_name := posix; getcwd := "/home/user"; environ := ∅; fs := ∅;
     today := {| year := 2025; month := 9; day := 4 |};
     init_fault := None; buckets := ∅; objects := ∅;
     faults := [Some (OtherException "MaxRetryError" "Connection refused")];
     trace := [] |}.

(** A store that answers the first call with an error response. *)
Definition denying_store : world :=
  {| os_name := posix; getcwd := "/home/user"; environ := ∅; fs := ∅;
     today := {| year := 2025; month := 9; day := 4 |};
     init_fault := None; buckets := ∅; objects := ∅;
     faults := [Some (S3Error "AccessDenied")];
     trace := [] |}.

(** A batch run that names a file that is not there. *)
Definition batch_args : args :=
  {| arg_mode := batch; arg_file := None; arg_relative := None;
     arg_directory := None; arg_base_relative := "";
     arg_files := Some ["/in/a.txt:docs/a.txt"; "/in/b.txt:docs/b.txt"] |}.

(** A single-file run on a file of the Linux host. *)
Definition single_args : args :=
  {| arg_mode := single; arg_file := Some "/in/a.txt"; arg_relative := Some "docs/a.txt";
     arg_directory := None; arg_base_relative := ""; arg_files := None |}.

(** A single-file run that names a file that is not there. *)
Definition missing_file_args : args :=
  {| arg_mode := single; arg_file := Some "/in/b.txt"; arg_relative := Some "docs/b.txt";
     arg_directory := None; arg_base_relative := ""; arg_files := None |}.

(** A batch run whose second entry has no colon. *)
Definition malformed_args : args :=
  {| arg_mode := batch; arg_file := None; arg_relative := None;
     arg_directory := None; arg_base_relative := "";
     arg_files := Some ["/in/a.txt:docs/a.txt"; "/in/c.pdf"] |}.

(** A Linux host whose spool directory holds an empty sub-directory and
    no file. *)
Definition spool_host : world :=
  {| os_name := posix; getcwd := "/home/user"; environ := ∅;
     fs := {[ "/spool" := Dir [("old", Dir [])] ]};
     today := {| year := 2025; month := 9; day := 4 |};
     init_fault := None; buckets := {[ "data" ]}; objects := ∅;
     faults := []; trace := [] |}.

(** A directory run on the spool directory. *)
Definition spool_args : args :=
  {| arg_mode := directory; arg_file := None; arg_relative := None;
     arg_directory := Some "/spool"; arg_base_relative := "backup"; arg_files := None |}.

(** The Linux host when the store answers the put with an error
    response: the validation and the size go through, the third call
    fails. *)
Definition refusing_store : world :=
  set_faults (fun _ => [None; None; Some (S3Error "AccessDenied")]) linux_host.

(** A directory of photos: two files at the top, a sub-directory with a
    file and a sub-directory of its own, and an empty sub-directory. *)
Definition photos : list (string * node) :=
  [("a.jpg", File 3 true);
   ("2024", Dir [("b.jpg", File 4 true); ("raw", Dir [("c.raw", File 9 false)])]);
   ("empty", Dir []);
   ("z.txt", File 1 true)].

Definition photos_host : world :=
  {| os_name := posix; getcwd := "/home/user"; environ := ∅;
     fs := {[ "/photos" := Dir photos;
              "/photos/a.jpg" := File 3 true;
              "/photos/z.txt" := File 1 true;
              "/photos/2024/b.jpg" := File 4 true;
              "/photos/2024/raw/c.raw" := File 9 false ]};
     today := {| year := 2025; month := 9; day := 4 |};
     init_fault := None; buckets := {[ "data" ]}; objects := ∅;
     faults := []; trace := [] |}.

End Samples.

(** * Vocabulary of the statements *)

(** ** How a world may change *)

(** From [w] to [w']: the host, the file system, the clock and the
    environment stay, the store loses no bucket, the faults in store are
    used up from the front, and the trace grows at its end. *)
Record evolves (w w' : world) : Prop := {
  ev_os_name : os_name w' = os_name w;
  ev_getcwd : getcwd w' = getcwd w;
  ev_environ : environ w' = environ w;
  ev_fs : fs w' = fs w;
  ev_today : today w' = today w;
  ev_init_fault : init_fault w' = init_fault w;
  ev_buckets : buckets w ⊆ buckets w';
  ev_faults : faults w' `suffix_of` faults w;
  ev_trace : trace w `prefix_of` trace w'
}.

(** ** What a computation does, whatever the world *)

(** The local paths probed by [validate_file_path], in order. *)
Definition probe_of (ev : event) : option string :=
  match ev with EvValidate path => Some path | _ => None end.
Definition validated (evs : list event) : list string := omap probe_of evs.

(** The calls to the storage client among some events. *)
Definition gateway_call (ev : event) : option event :=
  match ev with
  | EvBucketExists _ | EvMakeBucket _ | EvPut _ _ _ => Some ev
  | _ => None
  end.
Definition gateway_calls (evs : list event) : list event := omap gateway_call evs.

(** Some line of the log among the events is an error. *)
Definition error_logged (evs : list event) : Prop := ∃ msg, EvLog ERROR msg ∈ evs.

(** Events that are lines on the console and nothing else. *)
Definition console_only (evs : list event) : Prop :=
  Forall (fun ev => ∃ msg, ev = EvPrint msg) evs.

(** [m] never raises. *)
Definition returns {A} (m : M A) : Prop := ∀ w, ∃ a, (m w).1 = Return a.

(** Every value [m] returns satisfies [P]. *)
Definition yields {A} (P : A → Prop) (m : M A) : Prop :=
  ∀ w a, (m w).1 = Return a → P a.

(** [m] changes the world by [evolves] only, and probes the paths [xs]. *)
Definition probes {A} (xs : list string) (m : M A) : Prop :=
  ∀ w, evolves w (m w).2 ∧ validated (new_events w (m w).2) = xs.

(** The events that are calls of [fput_object]. *)
Definition put_call (ev : event) : option event :=
  match ev with EvPut _ _ _ => Some ev | _ => None end.
Definition put_calls (evs : list event) : list event := omap put_call evs.

(** From [w] to [w'] nothing was uploaded: no local path was probed, the
    client was not asked to put a file, and the store has the objects it
    had. *)
Record untouched (w w' : world) : Prop := {
  un_evolves : evolves w w';
  un_validated : validated (new_events w w') = [];
  un_put_calls : put_calls (new_events w w') = [];
  un_objects : objects w' = objects w
}.

(** [m] uploads nothing, whatever the world. *)
Definition idle {A} (m : M A) : Prop := ∀ w, untouched w (m w).2.

(** The uploader [MinIOFileUploader.__init__] builds in the world [w]. *)
Definition configured_uploader (w : world) : MinIOFileUploader :=
  {| bucket_name := cfg_bucket_name (minio_config w);
     base_upload_path := cfg_base_upload_path (minio_config w) |}.

(** The arguments [main] turns down before any upload: a flag of the
    mode is missing or empty, or the file or directory named is not
    there. *)
Definition rejected_arguments (w : world) (a : args) : bool :=
  match arg_mode a with
  | single =>
      absent (arg_file a) || absent (arg_relative a)
      || negb (OsPath.exists_ w (value (arg_file a)))
  | batch =>
      match arg_files a with
      | None | Some [] => true
      | Some _ => false
      end
  | directory =>
      absent (arg_directory a) || negb (OsPath.isdir w (value (arg_directory a)))
  end.

(** The regular files below a directory, at any depth. *)
Fixpoint files_under (n : node) : nat :=
  match n with
  | File _ _ => 0
  | Dir entries =>
      (fix below (es : list (string * node)) : nat :=
         match es with
         | [] => 0
         | (_, File _ _) :: es' => S (below es')
         | (_, (Dir _) as d) :: es' => files_under d + below es'
         end) entries
  end.

(** A file of the top directory, and a file of its sub-directory [name]. *)
Definition at_top (name : string) : list string * string := ([], name).
Definition under (name : string) (p : list string * string) : list string * string :=
  (name :: p.1, p.2).

(** The regular files below a directory, each with the names of the
    directories that lead to it from the top and its own name, in the
    order of [os.walk]: the files of a directory first, then those of its
    sub-directories in turn. *)
Fixpoint files_below (n : node) : list (list string * string) :=
  match n with
  | File _ _ => []
  | Dir entries =>
      map at_top (filter (fun e => OsPath.is_dir_entry e = false) entries).*1
      ++ (fix below (es : list (string * node)) : list (list string * string) :=
            match es with
            | [] => []
            | (_, File _ _) :: es' => below es'
            | (name, (Dir _) as d) :: es' =>
                map (under name) (files_below d) ++ below es'
            end) entries
  end.

(** [file_at n (ds, f)]: going down from the directory [n] through the
    directories [ds] leads to a regular file named [f]. *)
Inductive file_at : node → list string * string → Prop :=
  | file_here entries name size readable :
      (name, File size readable) ∈ entries → file_at (Dir entries) ([], name)
  | file_further entries name sub ds f :
      (name, Dir sub) ∈ entries → file_at (Dir sub) (ds, f) →
      file_at (Dir entries) (name :: ds, f).

(** No directory of the tree has two entries of one name. *)
Fixpoint distinct_names (n : node) : bool :=
  match n with
  | File _ _ => true
  | Dir entries =>
      bool_decide (NoDup entries.*1)
      && (fix all (es : list (string * node)) : bool :=
            match es with
            | [] => true
            | (_, d) :: es' => distinct_names d && all es'
            end) entries
  end.

(** The sub-directory part of [files_below]. *)
Definition below (es : list (string * node)) : list (list string * string) :=
  flat_map (fun e => match e.2 with
                     | File _ _ => []
                     | Dir _ => map (under e.1) (files_below e.2)
                     end) es.

(** The line [upload_file] writes to the log for an exception it has
    caught: that of [except S3Error] or that of [except Exception]. *)
Definition except_line (e : exn) : string :=
  (if is_S3Error e then "MinIO上传失败: " else "文件上传异常: ") +:+ str_exn e.

(** None of the next [n] I/O calls has a fault in store. *)
Definition fault_free (n : nat) (fl : list (option exn)) : bool :=
  forallb (fun f => match f with None => true | Some _ => false end) (take n fl).

(** ** Decimal digits and result records *)

(** The characters [0] to [9] and the digit each stands for. *)
Definition is_digit (c : ascii) : bool :=
  (48 <=? nat_of_ascii c)%nat && (nat_of_ascii c <=? 57)%nat.

Definition digit_value (c : ascii) : Z := (Z.of_nat (nat_of_ascii c) - 48)%Z.

(** The number a string of decimal digits denotes. *)
Definition decimal (s : string) : Z :=
  foldl (fun n c => (10 * n + digit_value c)%Z) 0%Z (PyStr.chars s).

(** The counts and failures of [rep] added to those of [res]. *)
Definition merge (res rep : results) : results :=
  {| total := total res; success := success res + success rep;
     failed := failed res + failed rep;
     failed_files := failed_files res ++ failed_files rep |}.

(** * Reasoning about runs *)

Lemma evolves_refl w : evolves w w.
Proof. by split. Qed.

Lemma evolves_trans w1 w2 w3 : evolves w1 w2 → evolves w2 w3 → evolves w1 w3.
Proof.
  intros [] []. split; try congruence; by etrans.
Qed.

Lemma evolves_trace w ev : evolves w (set_trace (fun t => t ++ [ev]) w).
Proof. split; try done. by apply prefix_app_r. Qed.

Lemma evolves_faults w rest :
  rest `suffix_of` faults w → evolves w (set_faults (fun _ => rest) w).
Proof. intros. by split. Qed.

Lemma evolves_buckets w b : evolves w (set_buckets (fun bs => {[b]} ∪ bs) w).
Proof. split; try done. simpl. set_solver. Qed.

Lemma evolves_objects w f : evolves w (set_objects f w).
Proof. by split. Qed.

Lemma evolves_no_fault w w' : evolves w w' → faults w = [] → faults w' = [].
Proof.
  intros [_ _ _ _ _ _ _ Hs _] Hf. rewrite Hf in Hs. by apply suffix_nil_inv.
Qed.

Lemma new_events_app w evs : new_events w (set_trace (fun t => t ++ evs) w) = evs.
Proof. unfold new_events. simpl. by rewrite drop_app_length. Qed.

Lemma new_events_refl w : new_events w w = [].
Proof. unfold new_events. by rewrite drop_all. Qed.

Lemma trace_new_events w w' : evolves w w' → trace w' = trace w ++ new_events w w'.
Proof.
  intros [_ _ _ _ _ _ _ _ [k Hk]]. unfold new_events. rewrite Hk.
  by rewrite drop_app_length.
Qed.

Lemma new_events_trans w1 w2 w3 :
  evolves w1 w2 → evolves w2 w3 →
  new_events w1 w3 = new_events w1 w2 ++ new_events w2 w3.
Proof.
  intros H12 H23.
  pose proof (trace_new_events _ _ H12) as E12.
  pose proof (trace_new_events _ _ H23) as E23.
  unfold new_events at 1. rewrite E23, E12, <- app_assoc.
  by rewrite drop_app_length.
Qed.

Lemma run_bind {A B} (m : M A) (k : A → M B) w :
  (m ≫= k) w =
    match (m w).1 with
    | Return a => k a (m w).2
    | Raise e => (Raise e, (m w).2)
    end.
Proof. unfold mbind, M_bind, bind. by destruct (m w) as [[a|e] w']. Qed.

Lemma run_try {A} (body : M A) handler w :
  try_except body handler w =
    match (body w).1 with
    | Return a => (Return a, (body w).2)
    | Raise e =>
        match handler e with
        | Some h => h (body w).2
        | None => (Raise e, (body w).2)
        end
    end.
Proof. unfold try_except. by destruct (body w) as [[a|e] w']. Qed.

Lemma run_emit_bind {A} ev (k : () → M A) w :
  (emit ev ≫= k) w = k () (set_trace (fun t => t ++ [ev]) w).
Proof. done. Qed.

Section Rules.
Context {A B : Type}.
Implicit Types (m : M A) (k : A → M B).

Lemma returns_ret (a : A) : returns (ret a).
Proof. intros w. by exists a. Qed.

Lemma returns_bind m k : returns m → (∀ a, returns (k a)) → returns (m ≫= k).
Proof.
  intros Hm Hk w. rewrite run_bind. destruct (Hm w) as [a ->]. apply Hk.
Qed.

(** A [try] whose handlers cover every exception and do not raise. *)
Lemma returns_try m (handler : exn → option (M A)) :
  (∀ e, ∃ h, handler e = Some h ∧ returns h) → returns (try_except m handler).
Proof.
  intros Hh w. rewrite run_try. destruct (m w).1 as [a|e]; [by exists a|].
  destruct (Hh e) as (h & -> & Hr). apply Hr.
Qed.

Lemma yields_ret (P : A → Prop) a : P a → yields P (ret a).
Proof. intros HP w a' [= <-]. done. Qed.

Lemma yields_raise (P : A → Prop) e : yields P (raise e).
Proof. intros w a' [=]. Qed.

Lemma yields_bind (P : B → Prop) m k : (∀ a, yields P (k a)) → yields P (m ≫= k).
Proof.
  intros Hk w b. rewrite run_bind. destruct (m w).1 as [a|e]; [apply Hk | done].
Qed.

Lemma probes_ret (a : A) : probes [] (ret a).
Proof. intros w. split; [apply evolves_refl | by rewrite new_events_refl]. Qed.

Lemma probes_raise e : probes [] (raise (A:=A) e).
Proof. intros w. split; [apply evolves_refl | by rewrite new_events_refl]. Qed.

(** Sequencing when the continuation probes nothing. *)
Lemma probes_bind xs m k : probes xs m → (∀ a, probes [] (k a)) → probes xs (m ≫= k).
Proof.
  intros Hm Hk w. rewrite run_bind. destruct (Hm w) as [Hev Hxs].
  destruct (m w).1 as [a|e]; [|done].
  destruct (Hk a (m w).2) as [Hev' Hnil]. split; [by eapply evolves_trans|].
  rewrite (new_events_trans _ _ _ Hev Hev'). unfold validated in *.
  by rewrite omap_app, Hxs, Hnil, app_nil_r.
Qed.

(** Sequencing after a computation that cannot raise. *)
Lemma probes_seq xs ys m k :
  returns m → probes xs m → (∀ a, probes ys (k a)) → probes (xs ++ ys) (m ≫= k).
Proof.
  intros Hr Hm Hk w. rewrite run_bind. destruct (Hm w) as [Hev Hxs].
  destruct (Hr w) as [a Ha]. rewrite Ha.
  destruct (Hk a (m w).2) as [Hev' Hys]. split; [by eapply evolves_trans|].
  rewrite (new_events_trans _ _ _ Hev Hev'). unfold validated in *.
  by rewrite omap_app, Hxs, Hys.
Qed.

Lemma probes_try xs m (handler : exn → option (M A)) :
  probes xs m → (∀ e h, handler e = Some h → probes [] h) →
  probes xs (try_except m handler).
Proof.
  intros Hm Hh w. rewrite run_try. destruct (Hm w) as [Hev Hxs].
  destruct (m w).1 as [a|e]; [done|].
  destruct (handler e) as [h|] eqn:He; [|done].
  destruct (Hh e h He (m w).2) as [Hev' Hnil]. split; [by eapply evolves_trans|].
  rewrite (new_events_trans _ _ _ Hev Hev'). unfold validated in *.
  by rewrite omap_app, Hxs, Hnil, app_nil_r.
Qed.
End Rules.

Lemma returns_get_world : returns get_world.
Proof. intros w. by exists w. Qed.

Lemma probes_get_world : probes [] get_world.
Proof. intros w. split; [apply evolves_refl | by rewrite new_events_refl]. Qed.

Lemma returns_emit ev : returns (emit ev).
Proof. intros w. by exists (). Qed.

Lemma probes_emit ev : probes (validated [ev]) (emit ev).
Proof.
  intros w. unfold emit, modify. simpl. split; [apply evolves_trace|].
  by rewrite new_events_app.
Qed.

Lemma probes_io ev : probes (validated [ev]) (io ev).
Proof.
  intros w. unfold io, emit, modify, get_world, mbind, M_bind, bind, raise; simpl.
  set (w1 := set_trace _ w).
  assert (H1 : evolves w w1) by apply evolves_trace.
  assert (E1 : new_events w w1 = [ev]) by apply new_events_app.
  assert (H2 : ∀ o rest, faults w = o :: rest →
               evolves w (set_faults (fun _ => rest) w1)
               ∧ new_events w (set_faults (fun _ => rest) w1) = [ev]).
  { intros o rest Hf. split.
    - eapply evolves_trans; [exact H1|]. apply evolves_faults. simpl.
      rewrite Hf. by apply suffix_cons_r.
    - exact E1. }
  destruct (faults w) as [|[e|] rest] eqn:Hf; simpl.
  - by rewrite E1.
  - destruct (H2 _ _ eq_refl) as [? ->]. done.
  - destruct (H2 _ _ eq_refl) as [? ->]. done.
Qed.

Lemma io_no_fault ev w :
  faults w = [] → io ev w = (Return (), set_trace (fun t => t ++ [ev]) w).
Proof.
  intros Hf. unfold io, emit, modify, get_world, mbind, M_bind, bind. simpl.
  by rewrite Hf.
Qed.

Lemma returns_modify f : returns (modify f).
Proof. intros w. by exists (). Qed.

Lemma probes_modify f :
  (∀ w, evolves w (f w)) → (∀ w, trace (f w) = trace w) → probes [] (modify f).
Proof.
  intros Hev Htr w. unfold modify; simpl. split; [apply Hev|].
  unfold new_events. by rewrite Htr, drop_all.
Qed.

Lemma probes_if {A} xs (b : bool) (m1 m2 : M A) :
  probes xs m1 → probes xs m2 → probes xs (if b then m1 else m2).
Proof. by destruct b. Qed.

Lemma returns_if {A} (b : bool) (m1 m2 : M A) :
  returns m1 → returns m2 → returns (if b then m1 else m2).
Proof. by destruct b. Qed.

Lemma run_seq_returns {A} (m : M unit) (a : A) w :
  returns m → ((m ;; ret a) w).1 = Return a.
Proof. intros Hm. rewrite run_bind. by destruct (Hm w) as [[] ->]. Qed.

(** One step through a computation that probes nothing. *)
Ltac quiet_step :=
  lazymatch goal with
  | |- probes [] (mret _) => apply probes_ret
  | |- probes [] (ret _) => apply probes_ret
  | |- probes [] (raise _) => apply probes_raise
  | |- probes [] get_world => apply probes_get_world
  | |- probes [] (emit _) => exact (probes_emit _)
  | |- probes [] (io _) => exact (probes_io _)
  | |- probes [] (modify (set_buckets _)) =>
      apply probes_modify; [intros; apply evolves_buckets | done]
  | |- probes [] (modify (set_objects _)) =>
      apply probes_modify; [intros; apply evolves_objects | done]
  | |- probes [] (_ ≫= _) => apply probes_bind; [|intros]
  | |- probes [] (if _ then _ else _) => apply probes_if
  | |- probes [] (match ?x with _ => _ end) => destruct x
  end.
Ltac quiet := repeat quiet_step.


Lemma probes_logger_info msg : probes [] (logger_info msg).
Proof. unfold logger_info. quiet. Qed.
Lemma probes_logger_warning msg : probes [] (logger_warning msg).
Proof. unfold logger_warning. quiet. Qed.
Lemma probes_logger_error msg : probes [] (logger_error msg).
Proof. unfold logger_error. quiet. Qed.
Lemma probes_print msg : probes [] (print msg).
Proof. unfold print. quiet. Qed.

Lemma returns_logger_info msg : returns (logger_info msg).
Proof. apply returns_emit. Qed.
Lemma returns_logger_warning msg : returns (logger_warning msg).
Proof. apply returns_emit. Qed.
Lemma returns_logger_error msg : returns (logger_error msg).
Proof. apply returns_emit. Qed.
Lemma returns_print msg : returns (print msg).
Proof. apply returns_emit. Qed.

Lemma probes_client_bucket_exists b : probes [] (client_bucket_exists b).
Proof. unfold client_bucket_exists. quiet. Qed.
Lemma probes_client_make_bucket b : probes [] (client_make_bucket b).
Proof. unfold client_make_bucket. quiet. Qed.
Lemma probes_client_fput_object b k p : probes [] (client_fput_object b k p).
Proof. unfold client_fput_object. quiet. Qed.

Create HintDb run discriminated.
#[local] Hint Resolve probes_logger_info probes_logger_warning probes_logger_error
  probes_print probes_client_bucket_exists probes_client_make_bucket
  probes_client_fput_object returns_logger_info returns_logger_warning
  returns_logger_error returns_print : run.

Lemma probes_for_each {X} (xs : list X) (body : X → M unit) :
  (∀ x, probes [] (body x)) → probes [] (for_each xs body).
Proof.
  intros Hb. induction xs as [|x xs IH]; simpl; [apply probes_ret|].
  apply probes_bind; [apply Hb | intros; apply IH].
Qed.

Lemma returns_for_each {X} (xs : list X) (body : X → M unit) :
  (∀ x, returns (body x)) → returns (for_each xs body).
Proof.
  intros Hb. induction xs as [|x xs IH]; simpl; [apply returns_ret|].
  apply returns_bind; [apply Hb | intros; apply IH].
Qed.

Lemma probes_validate_file_path p : probes [p] (validate_file_path p).
Proof.
  unfold validate_file_path. apply probes_bind; [exact (probes_io _)|].
  intros. quiet.
Qed.

Lemma probes_get_file_size p : probes [] (get_file_size p).
Proof. unfold get_file_size. quiet. Qed.

Lemma upload_file_except_total (e : exn) :
  ∃ msg, upload_file_except e = Some (logger_error msg ;; ret false).
Proof. destruct e; simpl; eauto. Qed.

Ltac run_program :=
  unfold upload_file, upload_file_try, validate_file_path, generate_minio_object_key,
    get_file_size, client_fput_object, client_bucket_exists, client_make_bucket,
    logger_info, logger_error, logger_warning, print, try_except, io, emit, modify,
    get_world, mbind, M_bind, bind, mret, M_ret, ret, raise,
    OsPath.isfile, OsPath.access_R_OK, OsPath.isdir, OsPath.exists_.

Lemma error_logged_app_r evs evs' : error_logged evs' → error_logged (evs ++ evs').
Proof. intros [msg H]. exists msg. set_solver. Qed.

Lemma error_logged_after w w' msg :
  evolves w w' →
  error_logged (new_events w (set_trace (fun t => t ++ [EvLog ERROR msg]) w')).
Proof.
  intros Hev.
  rewrite (new_events_trans w w' _ Hev (evolves_trace _ _)), new_events_app.
  apply error_logged_app_r. exists msg. set_solver.
Qed.

(** * The bucket check *)

Ltac run_ensure :=
  unfold ensure_bucket_exists, new_events; run_program; simpl.

Ltac decide_bucket :=
  repeat (first [rewrite bool_decide_eq_true_2 by done
                | rewrite bool_decide_eq_false_2 by done]; simpl).

Ltac trace_tail :=
  rewrite <- ?app_assoc; rewrite drop_app_length; simpl.

(** With the bucket there, the check is the one call made. *)
Lemma ensure_bucket_exists_present self w :
  bucket_name self ∈ buckets w →
  gateway_calls (new_events w (ensure_bucket_exists self w).2)
    = [EvBucketExists (bucket_name self)]
  ∧ buckets (ensure_bucket_exists self w).2 = buckets w.
Proof.
  destruct w as [? ? ? ? ? ? bs ? fl tr]; simpl. intros Hin. run_ensure.
  destruct fl as [|[e|] rest]; simpl.
  - rewrite bool_decide_eq_true_2 by done. simpl. by trace_tail.
  - destruct e; simpl; by trace_tail.
  - rewrite bool_decide_eq_true_2 by done. simpl. by trace_tail.
Qed.

(** A call that returns true leaves the bucket in the store. *)
Lemma ensure_bucket_exists_true self w :
  (ensure_bucket_exists self w).1 = Return true →
  bucket_name self ∈ buckets (ensure_bucket_exists self w).2.
Proof.
  destruct w as [? ? ? ? ? ? bs ? fl tr]; simpl. run_ensure.
  destruct (decide (bucket_name self ∈ bs)) as [Hin|Hout].
  - destruct fl as [|[e|] rest]; simpl; decide_bucket; try done.
    destruct e; simpl; done.
  - destruct fl as [|[e|] rest]; simpl; decide_bucket.
    + intros _. set_solver.
    + destruct e; simpl; done.
    + destruct rest as [|[e|] rest]; simpl; decide_bucket.
      * intros _. set_solver.
      * destruct e; simpl; done.
      * intros _. set_solver.
Qed.

(** An [S3Error] from the store is turned into a false result. *)
Lemma ensure_bucket_exists_S3Error self w msg rest :
  faults w = Some (S3Error msg) :: rest →
  (ensure_bucket_exists self w).1 = Return false.
Proof. destruct w; simpl. intros ->. by run_ensure. Qed.

(** Any other exception of the first call leaves the method. *)
Lemma ensure_bucket_exists_propagates self w e rest :
  faults w = Some e :: rest → is_S3Error e = false →
  (ensure_bucket_exists self w).1 = Raise e.
Proof. destruct w; simpl. intros -> He. run_ensure. by destruct e. Qed.

Lemma probes_ensure_bucket_exists self : probes [] (ensure_bucket_exists self).
Proof.
  unfold ensure_bucket_exists. apply probes_try.
  - apply probes_bind; [auto with run|]. intros found.
    apply probes_bind; [|intros; quiet].
    apply probes_if; [|auto with run].
    apply probes_bind; [auto with run|]. intros. auto with run.
  - intros [] h [= <-]. apply probes_bind; [auto with run|]. intros. quiet.
Qed.

Lemma probes_MinIOFileUploader_init : probes [] MinIOFileUploader_init.
Proof.
  unfold MinIOFileUploader_init. apply probes_try.
  - quiet; auto with run.
  - intros e h [= <-]. apply probes_bind; [auto with run|]. intros. quiet.
Qed.

(** C6: from a world whose store has the bucket, [ensure_bucket_exists]
    makes one call to the client, the existence check, and leaves the
    buckets as they are; and after a call that returned true the bucket
    is there, so that a second call in succession is that check alone:
    [make_bucket] is not called for a bucket that exists. *)
Theorem C6_no_create_for_existing_bucket self w :
  (bucket_name self ∈ buckets w →
     gateway_calls (new_events w (ensure_bucket_exists self w).2)
       = [EvBucketExists (bucket_name self)]
     ∧ buckets (ensure_bucket_exists self w).2 = buckets w)
  ∧ ((ensure_bucket_exists self w).1 = Return true →
     let w1 := (ensure_bucket_exists self w).2 in
     gateway_calls (new_events w1 (ensure_bucket_exists self w1).2)
       = [EvBucketExists (bucket_name self)]
     ∧ buckets (ensure_bucket_exists self w1).2 = buckets w1).
Proof.
  split; [apply ensure_bucket_exists_present|].
  intros Htrue w1. apply ensure_bucket_exists_present.
  by apply ensure_bucket_exists_true.
Qed.

(** C3 at a store that cannot be reached: the HTTP layer of the SDK gives
    up with its own exception, which is no [S3Error]; the [except S3Error]
    clause of [ensure_bucket_exists] lets it pass, and the method raises
    where its docstring promises [False]. An [S3Error] in its place is
    turned into [False]. *)
Theorem C3_ensure_bucket_raises_on_transport_error :
  (ensure_bucket_exists Samples.uploader Samples.unreachable_store).1
    = Raise (OtherException "MaxRetryError" "Connection refused")
  ∧ (ensure_bucket_exists Samples.uploader Samples.denying_store).1 = Return false.
Proof. split; reflexivity. Qed.

(** * The result report *)

Lemma ResultReport_cons_true item outcomes :
  ResultReport ((item, true) :: outcomes)
    = {| total := S (total (ResultReport outcomes));
         success := S (success (ResultReport outcomes));
         failed := failed (ResultReport outcomes);
         failed_files := failed_files (ResultReport outcomes) |}.
Proof.
  unfold ResultReport.
  rewrite (filter_cons_True (fun o : UploadOutcome => o.2 = true)) by done.
  rewrite (filter_cons_False (fun o : UploadOutcome => o.2 = false)) by (simpl; congruence).
  done.
Qed.

Lemma ResultReport_cons_false item outcomes :
  ResultReport ((item, false) :: outcomes)
    = {| total := S (total (ResultReport outcomes));
         success := success (ResultReport outcomes);
         failed := S (failed (ResultReport outcomes));
         failed_files := item :: failed_files (ResultReport outcomes) |}.
Proof.
  unfold ResultReport.
  rewrite (filter_cons_False (fun o : UploadOutcome => o.2 = true)) by (simpl; congruence).
  rewrite (filter_cons_True (fun o : UploadOutcome => o.2 = false)) by done.
  done.
Qed.

Lemma ResultReport_counts outcomes :
  success (ResultReport outcomes) + failed (ResultReport outcomes) = length outcomes.
Proof.
  induction outcomes as [|[item []] outcomes IH]; [done|..].
  - rewrite ResultReport_cons_true; simpl in *. lia.
  - rewrite ResultReport_cons_false; simpl in *. lia.
Qed.

Lemma failed_files_report outcomes :
  failed_files (ResultReport outcomes) ⊆ outcomes.*1.
Proof.
  unfold ResultReport; simpl. intros m Hm.
  apply list_elem_of_fmap in Hm as (o & -> & Ho).
  apply list_elem_of_filter in Ho as [_ Ho]. by apply list_elem_of_fmap_2.
Qed.

(** * Strings, dates and keys *)

Lemma digit_char_cases d :
  ∃ n, (n < 10)%nat ∧ Z.of_nat n = (d `mod` 10)%Z ∧ digit_char d = ascii_of_nat (48 + n).
Proof.
  exists (Z.to_nat (d `mod` 10)).
  pose proof (Z.mod_pos_bound d 10 eq_refl). split; [lia|]. split; [lia|done].
Qed.

Lemma is_digit_digit_char d : is_digit (digit_char d) = true.
Proof.
  destruct (digit_char_cases d) as (n & Hn & _ & ->).
  do 10 (destruct n as [|n]; [done|]). lia.
Qed.

Lemma digit_value_digit_char d : digit_value (digit_char d) = (d `mod` 10)%Z.
Proof.
  destruct (digit_char_cases d) as (n & Hn & <- & ->).
  do 10 (destruct n as [|n]; [done|]). lia.
Qed.

Lemma partition_date_decimal d :
  (0 ≤ year d < 10000)%Z → (0 ≤ month d < 100)%Z → (0 ≤ day d < 100)%Z →
  decimal (partition_date d) = (year d * 10000 + month d * 100 + day d)%Z.
Proof.
  intros Hy Hm Hd. unfold decimal, partition_date, PyStr.chars, PyStr.of_chars.
  rewrite list_ascii_of_string_of_list_ascii. simpl.
  rewrite !digit_value_digit_char.
  Z.div_mod_to_equations. lia.
Qed.

Lemma append_assoc s t u : (s +:+ t) +:+ u = s +:+ t +:+ u.
Proof.
  induction s as [|c s IH]; [done|].
  change ((String c (s +:+ t)) +:+ u = String c (s +:+ t +:+ u)).
  change (String c ((s +:+ t) +:+ u) = String c (s +:+ t +:+ u)). by rewrite IH.
Qed.

Lemma chars_app s t : PyStr.chars (s +:+ t) = PyStr.chars s ++ PyStr.chars t.
Proof.
  unfold PyStr.chars. induction s as [|c s IH]; [done|].
  change (String c s +:+ t) with (String c (s +:+ t)). simpl. by rewrite IH.
Qed.

Lemma replace_app a b s t :
  PyStr.replace a b (s +:+ t) = PyStr.replace a b s +:+ PyStr.replace a b t.
Proof.
  induction s as [|c s IH]; [done|].
  change (String c s +:+ t) with (String c (s +:+ t)). simpl. by rewrite IH.
Qed.

Lemma replace_removes a b s : a ≠ b → PyStr.contains a (PyStr.replace a b s) = false.
Proof.
  intros Hab. induction s as [|c s IH]; simpl; [done|]. rewrite IH, orb_false_r.
  destruct (Ascii.eqb_spec c a) as [->|Hc].
  - apply Ascii.eqb_neq. congruence.
  - by apply Ascii.eqb_neq.
Qed.

Lemma endswith_app_r s t suffix :
  PyStr.endswith t suffix = true → PyStr.endswith (s +:+ t) suffix = true.
Proof.
  unfold PyStr.endswith. rewrite !bool_decide_eq_true, chars_app, reverse_app.
  apply prefix_app_r.
Qed.

Lemma extension_pdf stem : extension (normalize_separators (stem +:+ ".pdf")) = ".pdf".
Proof.
  unfold extension, normalize_separators. rewrite replace_app, chars_app, reverse_app.
  done.
Qed.

Section KeyFacts.

Variable md5_hexdigest : string → string.

(** C9: the key is the base prefix and a slash, left out when the prefix
    is empty, then the date as eight decimal digits [YYYYMMDD], a slash,
    the digest of the normalised relative path and the extension of that
    path; a relative path ending in [.pdf] gives a key ending in [.pdf]. *)
Theorem C9_object_key_form base rel d :
  ComputeObjectKey md5_hexdigest base rel d
    = (if PyStr.truthy base then base +:+ "/" else "")
        +:+ partition_date d +:+ "/"
        +:+ md5_hexdigest (normalize_separators rel)
        +:+ extension (normalize_separators rel)
  ∧ (String.length (partition_date d) = 8
     ∧ Forall (fun c => is_digit c = true) (PyStr.chars (partition_date d)))
  ∧ ((0 ≤ year d < 10000)%Z → (0 ≤ month d < 100)%Z → (0 ≤ day d < 100)%Z →
     decimal (partition_date d) = (year d * 10000 + month d * 100 + day d)%Z)
  ∧ ∀ stem,
      extension (normalize_separators (stem +:+ ".pdf")) = ".pdf"
      ∧ PyStr.endswith (ComputeObjectKey md5_hexdigest base (stem +:+ ".pdf") d) ".pdf"
        = true.
Proof.
  split; [|split; [|split]].
  - unfold ComputeObjectKey. destruct base; [reflexivity|].
    cbn [PyStr.truthy app PyStr.join]. by rewrite append_assoc.
  - split; [reflexivity|].
    unfold partition_date, PyStr.chars, PyStr.of_chars.
    rewrite list_ascii_of_string_of_list_ascii.
    repeat (apply Forall_cons; split; [apply is_digit_digit_char|]). done.
  - apply partition_date_decimal.
  - intros stem. split; [apply extension_pdf|].
    unfold ComputeObjectKey. rewrite extension_pdf.
    destruct base; simpl; repeat apply endswith_app_r; by vm_compute.
Qed.

End KeyFacts.

(** * Relative paths of a directory upload *)

(** With a base relative path, the relative paths carry no backslash. *)
Lemma directory_mappings_normalised w dir base :
  PyStr.truthy base = true →
  Forall (fun m => PyStr.contains backslash m.2 = false) (directory_mappings w dir base).
Proof.
  intros Hbase. unfold directory_mappings. apply Forall_flat_map, Forall_forall.
  intros [[root dirs] files] _. apply Forall_fmap, Forall_forall. intros file _.
  unfold file_mapping; simpl. rewrite Hbase. by apply replace_removes.
Qed.

(** C4 on a Windows host, without a base relative path: the relative path
    of a file in a sub-directory keeps the backslash of [os.path.relpath],
    and it is with that backslash that the file is reported when its
    upload fails; the replacement by forward slashes is made on the other
    branch only, where the base relative path comes in front. *)
Theorem C4_windows_relative_path_keeps_backslash :
  directory_mappings Samples.windows_host "data" "" = [("data\sub\a.txt", "sub\a.txt")]
  ∧ PyStr.contains backslash "sub\a.txt" = true
  ∧ (upload_directory Samples.digest Samples.size_text Samples.uploader "data" ""
       Samples.windows_host_no_bucket).1
    = Return {| total := 1; success := 0; failed := 1;
                failed_files := [("data\sub\a.txt", "sub\a.txt")] |}
  ∧ directory_mappings Samples.windows_host "data" "backup"
    = [("data\sub\a.txt", "backup/sub/a.txt")].
Proof. repeat split; reflexivity. Qed.


(** * The entries of a batch run *)

Lemma split1_go_contains sep cur s :
  PyStr.contains sep s = true → ∃ l r, PyStr.split1_go sep cur s = [l; r].
Proof.
  revert cur. induction s as [|c s IH]; intros cur H; simpl in *; [discriminate|].
  destruct (Ascii.eqb c sep); simpl in *; [eauto | by apply IH].
Qed.

Lemma mapping_of_contains fm :
  PyStr.contains ":" fm = true → ∃ l r, PyStr.split1 ":" fm = [l; r] ∧ mapping_of fm = Some (l, r).
Proof.
  intros H. destruct (split1_go_contains ":" [] fm H) as (l & r & Hs).
  exists l, r. unfold mapping_of, PyStr.split1. by rewrite Hs.
Qed.

Lemma exists_evolves w w' p : evolves w w' → OsPath.exists_ w' p = OsPath.exists_ w p.
Proof. intros Hev. unfold OsPath.exists_. by rewrite (ev_fs _ _ Hev). Qed.

Lemma existing_mappings_evolves w w' files :
  evolves w w' → existing_mappings w' files = existing_mappings w files.
Proof.
  intros Hev. unfold existing_mappings. apply list_filter_iff. intros m.
  by rewrite (exists_evolves _ _ _ Hev).
Qed.

Lemma existing_mappings_cons w fm files l r :
  mapping_of fm = Some (l, r) →
  existing_mappings w (fm :: files)
    = (if OsPath.exists_ w l then [(l, r)] else []) ++ existing_mappings w files.
Proof.
  intros Hm. unfold existing_mappings. simpl. rewrite Hm.
  destruct (OsPath.exists_ w l) eqn:He.
  - by rewrite filter_cons_True.
  - rewrite filter_cons_False; [done|]. simpl. congruence.
Qed.

(** One turn of the loop on an entry with a colon. *)
Lemma collect_turn_mapping fm l r acc w :
  PyStr.split1 ":" fm = [l; r] →
  ∃ w', collect_turn fm acc w
          = (Return (GoOn (acc ++ if OsPath.exists_ w l then [(l, r)] else [])), w')
        ∧ evolves w w' ∧ console_only (new_events w w').
Proof.
  intros Hs. unfold collect_turn, unpack_mapping. rewrite Hs.
  unfold try_except, get_world, print, mbind, M_bind, bind, ret, emit, modify, mret, M_ret;
    simpl.
  destruct (OsPath.exists_ w l); simpl.
  - eexists; split; [done|]. split; [apply evolves_refl|].
    rewrite new_events_refl. constructor.
  - rewrite app_nil_r. eexists; split; [done|]. split; [apply evolves_trace|].
    rewrite new_events_app. repeat constructor. eauto.
Qed.

(** The loop keeps, in order, the mappings whose local path exists, and
    says what it drops on the console. *)
Lemma collect_mappings_existing files acc w :
  Forall (fun fm => PyStr.contains ":" fm = true) files →
  ∃ w', collect_mappings files acc w
          = (Return (Some (acc ++ existing_mappings w files)), w')
        ∧ evolves w w' ∧ console_only (new_events w w').
Proof.
  intros Hall. revert acc w.
  induction Hall as [|fm files Hfm _ IH]; intros acc w; simpl.
  - rewrite app_nil_r. eexists; split; [done|]. split; [apply evolves_refl|].
    rewrite new_events_refl. constructor.
  - destruct (mapping_of_contains fm Hfm) as (l & r & Hs & Hm).
    destruct (collect_turn_mapping fm l r acc w Hs) as (w1 & Hrun & Hev1 & Hc1).
    rewrite run_bind, Hrun. cbn [fst snd].
    destruct (IH (acc ++ (if OsPath.exists_ w l then [(l, r)] else [])) w1)
      as (w2 & Hrun2 & Hev2 & Hc2).
    exists w2. split; [|split; [by eapply evolves_trans|]].
    + rewrite Hrun2, (existing_mappings_evolves _ _ _ Hev1).
      by rewrite (existing_mappings_cons _ _ _ _ _ Hm), app_assoc.
    + rewrite (new_events_trans _ _ _ Hev1 Hev2). by apply Forall_app.
Qed.

Lemma returns_report res : returns (report res).
Proof.
  unfold report. repeat (apply returns_bind; [auto with run | intros _]).
  apply returns_if; [|apply returns_ret].
  apply returns_bind; [auto with run | intros _].
  apply returns_for_each. intros [l r]. auto with run.
Qed.

Lemma run_finish ok w : (finish ok w).1 = Return ok.
Proof. unfold finish. apply run_seq_returns. apply returns_if; auto with run. Qed.

(** * Uploads *)

Section UploadFacts.

Variable md5_hexdigest : string → string.
Variable format_file_size : Z → string.
Implicit Types (self : MinIOFileUploader) (w : world).

#[local] Abbreviation upload_file := (upload_file md5_hexdigest format_file_size).
#[local] Abbreviation upload_files_loop := (upload_files_loop md5_hexdigest format_file_size).
#[local] Abbreviation upload_files_batch := (upload_files_batch md5_hexdigest format_file_size).
#[local] Abbreviation upload_directory := (upload_directory md5_hexdigest format_file_size).
#[local] Abbreviation upload_outcomes := (upload_outcomes md5_hexdigest format_file_size).
#[local] Abbreviation batch_mode := (batch_mode md5_hexdigest format_file_size).
#[local] Abbreviation main := (main md5_hexdigest format_file_size).

Lemma probes_generate_minio_object_key base rel :
  probes [] (generate_minio_object_key md5_hexdigest base rel).
Proof. unfold generate_minio_object_key. quiet. Qed.

Lemma probes_upload_file_try self l r :
  probes [l] (upload_file_try md5_hexdigest format_file_size self l r).
Proof.
  unfold upload_file_try.
  apply probes_bind; [apply probes_validate_file_path|]. intros valid.
  apply probes_if.
  - quiet; auto with run.
  - apply probes_bind; [apply probes_generate_minio_object_key|]. intros key.
    apply probes_bind; [apply probes_get_file_size|]. intros size.
    repeat (apply probes_bind; [auto with run|intros]). quiet.
Qed.

(** [upload_file] probes its local path, once, whatever happens next. *)
Lemma probes_upload_file self l r : probes [l] (upload_file self l r).
Proof.
  unfold upload_file. apply probes_try; [apply probes_upload_file_try|].
  intros e h He. destruct (upload_file_except_total e) as [msg Hmsg].
  rewrite Hmsg in He. injection He as <-.
  apply probes_bind; [auto with run|]. intros. quiet.
Qed.

(** [upload_file] raises nothing: its handlers take every exception. *)
Lemma returns_upload_file self l r : returns (upload_file self l r).
Proof.
  unfold upload_file. apply returns_try. intros e.
  destruct (upload_file_except_total e) as [msg ->].
  eexists; split; [done|]. apply returns_bind; [auto with run|]. intros.
  apply returns_ret.
Qed.

Lemma probes_upload_files_loop self items res :
  probes items.*1 (upload_files_loop self items res).
Proof.
  revert res. induction items as [|[l r] items IH]; intros res; simpl.
  - apply probes_ret.
  - apply (probes_seq [l]); [apply returns_upload_file | apply probes_upload_file |].
    intros [|]; apply IH.
Qed.

Lemma returns_upload_files_loop self items res :
  returns (upload_files_loop self items res).
Proof.
  revert res. induction items as [|[l r] items IH]; intros res; simpl.
  - apply returns_ret.
  - apply returns_bind; [apply returns_upload_file|]. intros [|]; apply IH.
Qed.

Lemma returns_upload_files_batch self items : returns (upload_files_batch self items).
Proof.
  unfold upload_files_batch.
  apply returns_bind; [auto with run | intros _].
  apply returns_bind; [apply returns_upload_files_loop | intros res].
  apply returns_bind; [auto with run | intros _].
  apply returns_bind; [|intros; apply returns_ret].
  apply returns_if; [|apply returns_ret].
  apply returns_bind; [auto with run | intros _].
  apply returns_for_each. intros [l r]. auto with run.
Qed.

Lemma probes_upload_files_batch self items :
  probes items.*1 (upload_files_batch self items).
Proof.
  unfold upload_files_batch.
  change items.*1 with ([] ++ items.*1).
  apply probes_seq; [auto with run..|]. intros _.
  apply probes_bind; [apply probes_upload_files_loop|]. intros res.
  apply probes_bind; [auto with run | intros _].
  apply probes_bind; [|intros; apply probes_ret].
  apply probes_if; [|apply probes_ret].
  apply probes_bind; [auto with run | intros _].
  apply probes_for_each. intros [l r]. auto with run.
Qed.

Lemma returns_upload_directory self dir base : returns (upload_directory self dir base).
Proof.
  unfold upload_directory. apply returns_bind; [apply returns_get_world|]. intros w.
  apply returns_if; [|apply returns_upload_files_batch].
  apply returns_bind; [auto with run|]. intros. apply returns_ret.
Qed.

(** ** Runs without faults *)

(** A readable regular file goes through when the bucket is there. *)
Lemma upload_file_success self l r w size :
  faults w = [] → bucket_name self ∈ buckets w → fs w !! l = Some (File size true) →
  (upload_file self l r w).1 = Return true.
Proof.
  destruct w; simpl. intros -> Hb Hl. run_program; simpl.
  rewrite Hl; simpl. rewrite Hl; simpl. rewrite Hl; simpl.
  by rewrite bool_decide_eq_true_2.
Qed.


(** ** A false result comes with an error line *)

(** Past the validation, the [try] suite returns nothing but true. *)
Lemma upload_file_try_valid self l r :
  yields (fun ok => ok = true)
    (object_key ← generate_minio_object_key md5_hexdigest (base_upload_path self) r ;
     file_size ← get_file_size l ;
     logger_info "开始上传文件:" ;;
     logger_info ("  本地路径: " +:+ l) ;;
     logger_info ("  相对路径: " +:+ r) ;;
     logger_info ("  MinIO键名: " +:+ object_key) ;;
     logger_info ("  文件大小: " +:+ format_file_size file_size) ;;
     client_fput_object (bucket_name self) object_key l ;;
     logger_info ("文件上传成功: " +:+ object_key) ;;
     ret true).
Proof. repeat (apply yields_bind; intros). by apply yields_ret. Qed.

Lemma upload_file_false_logged self l r w :
  (upload_file self l r w).1 = Return false →
  error_logged (new_events w (upload_file self l r w).2).
Proof.
  unfold upload_file. rewrite run_try.
  pose proof (probes_upload_file_try self l r w) as [Hbody _].
  destruct (upload_file_try md5_hexdigest format_file_size self l r w).1
    as [ok|e] eqn:Hrun.
  - simpl. intros [= ->]. revert Hrun Hbody. unfold upload_file_try.
    rewrite run_bind.
    pose proof (probes_validate_file_path l w) as [Hval _].
    destruct (validate_file_path l w).1 as [[|]|e]; cbn [negb]; [| |done].
    + intros Hrun. by apply upload_file_try_valid in Hrun.
    + intros _ _. unfold logger_error. rewrite run_emit_bind.
      by apply error_logged_after.
  - destruct (upload_file_except_total e) as [msg ->]. intros _.
    unfold logger_error. rewrite run_emit_bind.
    by apply error_logged_after.
Qed.

(** ** What makes an upload succeed, and what each failure is turned into *)

Ltac settle :=
  split; [try done; intros; repeat split; done | try done; intros (? & ? & ?); done].

(** [upload_file] returns true exactly for a readable regular file, a
    bucket that is there and three I/O calls (the validation, the size,
    the put) that run into no fault. *)
Lemma upload_file_true_iff self l r w :
  (upload_file self l r w).1 = Return true
  ↔ OsPath.isfile w l && OsPath.access_R_OK w l = true
    ∧ bucket_name self ∈ buckets w
    ∧ fault_free 3 (faults w) = true.
Proof.
  destruct w as [? ? ? fs0 ? ? bs os fl tr]. unfold fault_free.
  destruct (fs0 !! l) as [[size [|]|entries]|] eqn:Hl;
    destruct (decide (bucket_name self ∈ bs)) as [Hb|Hb];
    run_program; unfold upload_file_except; run_program; simpl.
  all: destruct fl as [|[e|] fl]; simpl; rewrite ?Hl; simpl.
  all: try (destruct e; simpl; settle).
  all: try settle.
  all: try (destruct fl as [|[e|] fl]; simpl; rewrite ?Hl; simpl).
  all: try (destruct e; simpl; settle).
  all: try (destruct fl as [|[e|] fl]; simpl; rewrite ?Hl; simpl; decide_bucket).
  all: try (destruct e; simpl; settle).
  all: repeat (first [rewrite Hl | progress decide_bucket]; simpl); settle.
Qed.

(** An exception of the validation, or of the size or the put of a file
    that was found valid, is turned into false and its line in the log. *)
Lemma upload_file_fault self l r w n e rest :
  (n ≤ 2)%nat → faults w = replicate n None ++ Some e :: rest →
  n = 0%nat ∨ OsPath.isfile w l && OsPath.access_R_OK w l = true →
  (upload_file self l r w).1 = Return false
  ∧ EvLog ERROR (except_line e) ∈ new_events w (upload_file self l r w).2.
Proof.
  destruct w as [? ? ? fs0 ? ? bs os fl tr]. simpl. intros Hn -> Hvalid.
  unfold new_events, except_line.
  destruct n as [|[|[|n]]]; [| | |lia]; simpl.
  - run_program; unfold upload_file_except; run_program; simpl.
    destruct e; simpl; (split; [done|]; trace_tail; repeat constructor).
  - destruct Hvalid as [|Hvalid]; [done|]. revert Hvalid.
    run_program; unfold upload_file_except; run_program; simpl.
    destruct (fs0 !! l) as [[size [|]|entries]|] eqn:Hl; simpl; try done. intros _.
    rewrite ?Hl; simpl.
    destruct e; simpl; (split; [done|]; trace_tail; repeat constructor).
  - destruct Hvalid as [|Hvalid]; [done|]. revert Hvalid.
    run_program; unfold upload_file_except; run_program; simpl.
    destruct (fs0 !! l) as [[size [|]|entries]|] eqn:Hl; simpl; try done. intros _.
    repeat (rewrite ?Hl; simpl).
    destruct e; simpl; (split; [done|]; trace_tail; repeat constructor).
Qed.

(** C2: [upload_file] returns a boolean from every world, whatever the
    file system holds and whatever fault (an [S3Error] or any other
    exception) the calls it makes run into, and a false result comes with
    an error line in the log. Each failure is turned into false: a local
    path that names no readable regular file; an exception of the
    validation, or of the size or the put of a valid file, an [S3Error]
    of the put as any other, each with the line of its handler in the
    log; a bucket that is not there. True is returned for a readable
    file, a bucket that is there and calls without a fault, and for
    nothing else. [upload_files_batch] and [upload_directory] return
    their result likewise and raise nothing. *)
Theorem C2_uploads_never_raise self l r items dir base w :
  (∃ ok, (upload_file self l r w).1 = Return ok
         ∧ (ok = true ∨ error_logged (new_events w (upload_file self l r w).2)))
  ∧ (OsPath.isfile w l && OsPath.access_R_OK w l = false →
     (upload_file self l r w).1 = Return false
     ∧ error_logged (new_events w (upload_file self l r w).2))
  ∧ (∀ n e rest,
       (n ≤ 2)%nat → faults w = replicate n None ++ Some e :: rest →
       n = 0%nat ∨ OsPath.isfile w l && OsPath.access_R_OK w l = true →
       (upload_file self l r w).1 = Return false
       ∧ EvLog ERROR (except_line e) ∈ new_events w (upload_file self l r w).2)
  ∧ (bucket_name self ∉ buckets w →
     (upload_file self l r w).1 = Return false
     ∧ error_logged (new_events w (upload_file self l r w).2))
  ∧ ((upload_file self l r w).1 = Return true
     ↔ OsPath.isfile w l && OsPath.access_R_OK w l = true
       ∧ bucket_name self ∈ buckets w
       ∧ fault_free 3 (faults w) = true)
  ∧ (∃ res, (upload_files_batch self items w).1 = Return res)
  ∧ (∃ res, (upload_directory self dir base w).1 = Return res).
Proof.
  assert (Hfalse : (upload_file self l r w).1 ≠ Return true →
            (upload_file self l r w).1 = Return false
            ∧ error_logged (new_events w (upload_file self l r w).2)).
  { intros Hno. destruct (returns_upload_file self l r w) as [[|] Hok]; [done|].
    split; [done|]. by apply upload_file_false_logged. }
  split; [|split; [|split; [|split; [|split; [|split]]]]].
  - destruct (returns_upload_file self l r w) as [ok Hok]. exists ok. split; [done|].
    destruct ok; [by left | right]. by apply upload_file_false_logged.
  - intros Hl. apply Hfalse. rewrite upload_file_true_iff, Hl. by intros [? _].
  - intros n e rest. apply upload_file_fault.
  - intros Hb. apply Hfalse. rewrite upload_file_true_iff. by intros (_ & ? & _).
  - apply upload_file_true_iff.
  - apply returns_upload_files_batch.
  - apply returns_upload_directory.
Qed.

(** ** The loop against the result report *)

Lemma upload_outcomes_items self items w : (upload_outcomes self items w).*1 = items.
Proof.
  revert w. induction items as [|[l r] items IH]; intros w; simpl; [done|].
  destruct (returns_upload_file self l r w) as [ok Hok].
  destruct (upload_file self l r w) as [[ok'|e] w'] eqn:Hrun; simpl in *; [|done].
  by rewrite IH.
Qed.

Lemma upload_outcomes_cons self l r rest w ok :
  (upload_file self l r w).1 = Return ok →
  upload_outcomes self ((l, r) :: rest) w
    = ((l, r), ok) :: upload_outcomes self rest (upload_file self l r w).2.
Proof. simpl. destruct (upload_file self l r w) as [[ok'|e] w']; simpl; congruence. Qed.

Lemma upload_files_loop_report self items res w :
  (upload_files_loop self items res w).1
    = Return (merge res (ResultReport (upload_outcomes self items w))).
Proof.
  revert res w. induction items as [|[l r] items IH]; intros res w; simpl.
  - destruct res; unfold merge; simpl. by rewrite !Nat.add_0_r, app_nil_r.
  - rewrite run_bind.
    destruct (returns_upload_file self l r w) as [ok Hok].
    destruct (upload_file self l r w) as [[ok'|e] w'] eqn:Hrun; simpl in *; [|done].
    destruct ok'; rewrite IH.
    + rewrite ResultReport_cons_true. unfold merge; simpl. do 2 f_equal. lia.
    + rewrite ResultReport_cons_false. unfold merge; simpl.
      rewrite <- app_assoc. simpl. do 2 f_equal. lia.
Qed.

(** What follows the loop in [upload_files_batch] hands its result on. *)
Lemma upload_files_batch_loop self items w :
  (upload_files_batch self items w).1
    = (upload_files_loop self items
         {| total := length items; success := 0; failed := 0; failed_files := [] |}
         (batch_start items w)).1.
Proof.
  destruct (returns_upload_files_loop self items
              {| total := length items; success := 0; failed := 0; failed_files := [] |}
              (batch_start items w))
    as [res Hres].
  rewrite Hres. unfold upload_files_batch, logger_info.
  rewrite run_emit_bind, run_bind.
  change (set_trace _ w) with (batch_start items w).
  rewrite Hres, run_emit_bind.
  apply run_seq_returns.
  apply returns_if; [|apply returns_ret].
  apply returns_bind; [auto with run | intros _].
  apply returns_for_each. intros [l r]. auto with run.
Qed.

(** The result of a batch is the report of the outcomes of its items. *)
Lemma upload_files_batch_report self items w :
  (upload_files_batch self items w).1
    = Return (ResultReport (upload_outcomes self items (batch_start items w))).
Proof.
  rewrite upload_files_batch_loop, upload_files_loop_report.
  unfold merge, ResultReport; simpl. f_equal.
  pose proof (upload_outcomes_items self items (batch_start items w)) as Hitems.
  apply (f_equal length) in Hitems. rewrite length_fmap in Hitems. by rewrite Hitems.
Qed.

(** C5: the result of a batch is the result report of the outcomes of
    its items: [total] is the number of items, [success] and [failed]
    count the uploads that returned true and false, and [failed_files]
    lists the failed items in the order they were met. *)
Theorem C5_batch_result_is_report self items w :
  let outcomes := upload_outcomes self items (batch_start items w) in
  outcomes.*1 = items
  ∧ (upload_files_batch self items w).1 = Return (ResultReport outcomes)
  ∧ total (ResultReport outcomes) = length items
  ∧ success (ResultReport outcomes) + failed (ResultReport outcomes) = length items.
Proof.
  intros outcomes.
  assert (Hitems : outcomes.*1 = items) by apply upload_outcomes_items.
  assert (Hlen : length outcomes = length items).
  { rewrite <- (length_fmap fst outcomes). by rewrite Hitems. }
  split; [done|]. split; [apply upload_files_batch_report|].
  split; [done|]. by rewrite ResultReport_counts.
Qed.


(** ** A path that is no directory *)

(** C7: for a path that is not a directory (a regular file, or nothing
    at all) [upload_directory] returns the zeroed result, and the one
    thing it does is log the error: no path is probed and the client is
    not called. *)
Theorem C7_not_a_directory self dir base w :
  OsPath.isdir w dir = false →
  (upload_directory self dir base w).1
    = Return {| total := 0; success := 0; failed := 0; failed_files := [] |}
  ∧ new_events w (upload_directory self dir base w).2
    = [EvLog ERROR ("目录不存在: " +:+ dir)].
Proof.
  intros Hdir. unfold upload_directory, get_world. rewrite run_bind. cbn [fst snd].
  rewrite Hdir. cbn [negb]. unfold logger_error. rewrite run_emit_bind.
  split; [done|]. apply new_events_app.
Qed.

(** ** Batch mode of the command line *)

(** What [upload_multiple_files] returns: whether the batch had no failure. *)
Lemma upload_multiple_files_result uploader items w :
  ∃ w' res,
    evolves w w'
    ∧ (upload_files_batch uploader items w').1 = Return res
    ∧ (upload_multiple_files md5_hexdigest format_file_size uploader items w).1
      = Return (failed res =? 0)%nat.
Proof.
  unfold upload_multiple_files, print. rewrite run_emit_bind.
  set (w' := set_trace _ w).
  destruct (returns_upload_files_batch uploader items w') as [res Hres].
  exists w', res. split; [apply evolves_trace|]. split; [done|].
  rewrite run_bind, Hres, run_emit_bind, run_bind.
  by destruct (returns_report res (set_trace (fun t => t ++ [EvPrint (nl +:+ "📊 上传结果统计:")])
                                   (upload_files_batch uploader items w').2)) as [[] ->].
Qed.

(** The batch branch on entries that all have a colon. *)
Lemma batch_mode_result uploader a files w :
  arg_files a = Some files → files ≠ [] →
  Forall (fun fm => PyStr.contains ":" fm = true) files →
  match existing_mappings w files with
  | [] => (batch_mode uploader a w).1 = Return false
  | kept =>
      ∃ w' res, evolves w w'
        ∧ (upload_files_batch uploader kept w').1 = Return res
        ∧ (batch_mode uploader a w).1 = Return (failed res =? 0)%nat
  end.
Proof.
  intros Hfiles Hne Hall. unfold batch_mode. rewrite Hfiles.
  destruct files as [|fm files]; [done|].
  destruct (collect_mappings_existing (fm :: files) [] w Hall) as (w1 & Hrun & Hev1 & _).
  rewrite run_bind, Hrun. cbn [fst snd app].
  destruct (existing_mappings w (fm :: files)) as [|m kept]; [done|].
  destruct (upload_multiple_files_result uploader (m :: kept) w1)
    as (w' & res & Hev & Hres & Hm).
  exists w', res. split; [by eapply evolves_trans|]. split; [done|].
  by rewrite run_bind, Hm, run_finish.
Qed.

(** With nothing left to upload, [main] returns false. *)
Lemma main_batch_nothing_left a files w :
  arg_mode a = batch → arg_files a = Some files → files ≠ [] →
  Forall (fun fm => PyStr.contains ":" fm = true) files →
  existing_mappings w files = [] →
  (main a w).1 = Return false.
Proof.
  intros Hmode Hfiles Hne Hall Hkept. unfold main. rewrite run_try.
  unfold print. rewrite run_emit_bind. set (w1 := set_trace _ w).
  assert (H1 : evolves w w1) by apply evolves_trace.
  rewrite run_bind.
  pose proof (probes_MinIOFileUploader_init w1) as [H2 _].
  destruct (MinIOFileUploader_init w1) as [[uploader|e] w2]; cbn [fst snd] in *; [|done].
  rewrite run_emit_bind. set (w3 := set_trace _ w2).
  assert (H3 : evolves w2 w3) by apply evolves_trace.
  rewrite run_bind.
  pose proof (probes_ensure_bucket_exists uploader w3) as [H4 _].
  destruct (ensure_bucket_exists uploader w3) as [[[|]|e] w4]; cbn [fst snd negb] in *;
    [|done..].
  rewrite Hmode.
  pose proof (batch_mode_result uploader a files w4 Hfiles Hne Hall) as Hb.
  rewrite (existing_mappings_evolves w w4) in Hb
    by (do 3 (eapply evolves_trans; [|done]); done).
  rewrite Hkept in Hb. by rewrite Hb.
Qed.

(** C10: in batch mode, when every entry of [--files] has its colon,
    the loop of [main] keeps the mappings of the entries whose local path
    exists, in order, and drops the others with no more than a line on
    the console (nothing is logged, probed or sent to the store); a
    dropped mapping is not in that list; the batch runs over that list
    alone, so that its total is the length of the list and its failures
    are among the list, and the run succeeds, with exit code 0, when that
    batch has no failure, whatever was dropped; with nothing left the
    branch, and [main], return false, which is exit code 1. *)
Theorem C10_missing_entries_are_skipped uploader a files w :
  arg_mode a = batch → arg_files a = Some files → files ≠ [] →
  Forall (fun fm => PyStr.contains ":" fm = true) files →
  let kept := existing_mappings w files in
  (∃ w1, collect_mappings files [] w = (Return (Some kept), w1)
         ∧ evolves w w1 ∧ console_only (new_events w w1))
  ∧ (∀ l r, OsPath.exists_ w l = false → (l, r) ∉ kept)
  ∧ match kept with
    | [] => (batch_mode uploader a w).1 = Return false
            ∧ (main a w).1 = Return false
            ∧ exit_code false = 1%Z
    | _ => ∃ w' res, evolves w w'
             ∧ (upload_files_batch uploader kept w').1 = Return res
             ∧ total res = length kept
             ∧ failed_files res ⊆ kept
             ∧ (batch_mode uploader a w).1 = Return (failed res =? 0)%nat
             ∧ (failed res = 0 → exit_code (failed res =? 0)%nat = 0%Z)
    end.
Proof.
  intros Hmode Hfiles Hne Hall kept. split; [|split].
  - apply (collect_mappings_existing files [] w Hall).
  - intros l r Hl Hin. apply list_elem_of_filter in Hin as [Hex _]. simpl in Hex. congruence.
  - pose proof (batch_mode_result uploader a files w Hfiles Hne Hall) as Hb.
    pose proof (main_batch_nothing_left a files w Hmode Hfiles Hne Hall) as Hmain.
    fold kept in Hb, Hmain. destruct kept as [|m kept'] eqn:Hk.
    + split; [done|]. split; [by apply Hmain | done].
    + destruct Hb as (w' & res & Hev & Hres & Hrun). exists w', res.
      pose proof (upload_outcomes_items uploader (m :: kept') (batch_start (m :: kept') w'))
        as Hitems.
      pose proof (upload_files_batch_report uploader (m :: kept') w') as Hrep.
      assert (res = ResultReport (upload_outcomes uploader (m :: kept')
                                    (batch_start (m :: kept') w'))) as -> by congruence.
      split; [done|]. split; [done|]. split.
      { pose proof (f_equal length Hitems) as Hlen. by rewrite length_fmap in Hlen. }
      split.
      { intros x Hx. apply failed_files_report in Hx. by rewrite Hitems in Hx. }
      split; [done|]. by intros ->.
Qed.

End UploadFacts.

(** * Runs that upload nothing *)

Lemma untouched_refl w : untouched w w.
Proof. split; [apply evolves_refl | by rewrite new_events_refl.. | done]. Qed.

Lemma untouched_trans w1 w2 w3 : untouched w1 w2 → untouched w2 w3 → untouched w1 w3.
Proof.
  intros [E1 V1 P1 O1] [E2 V2 P2 O2]. split.
  - by eapply evolves_trans.
  - rewrite (new_events_trans _ _ _ E1 E2). unfold validated in *.
    by rewrite omap_app, V1, V2.
  - rewrite (new_events_trans _ _ _ E1 E2). unfold put_calls in *.
    by rewrite omap_app, P1, P2.
  - congruence.
Qed.

Lemma untouched_emit w ev :
  probe_of ev = None → put_call ev = None →
  untouched w (set_trace (fun t => t ++ [ev]) w).
Proof.
  intros Hv Hp. split; [apply evolves_trace | | | done]; rewrite new_events_app.
  - unfold validated; simpl. by rewrite Hv.
  - unfold put_calls; simpl. by rewrite Hp.
Qed.

Lemma untouched_faults w rest :
  rest `suffix_of` faults w → untouched w (set_faults (fun _ => rest) w).
Proof.
  intros Hs. split; [by apply evolves_faults | | | done];
    unfold new_events; simpl; by rewrite drop_all.
Qed.

Lemma untouched_buckets w b : untouched w (set_buckets (fun bs => {[b]} ∪ bs) w).
Proof.
  split; [apply evolves_buckets | | | done];
    unfold new_events; simpl; by rewrite drop_all.
Qed.

Section IdleRules.
Context {A B : Type}.
Implicit Types (m : M A) (k : A → M B).

Lemma idle_ret (a : A) : idle (ret a).
Proof. intros w. apply untouched_refl. Qed.

Lemma idle_raise e : idle (raise (A:=A) e).
Proof. intros w. apply untouched_refl. Qed.

Lemma idle_bind m k : idle m → (∀ a, idle (k a)) → idle (m ≫= k).
Proof.
  intros Hm Hk w. rewrite run_bind. specialize (Hm w).
  destruct (m w).1 as [a|e]; [|done]. eapply untouched_trans; [done | apply Hk].
Qed.

(** Sequencing when the values the first part can return are known. *)
Lemma idle_bind_yields (P : A → Prop) m k :
  idle m → yields P m → (∀ a, P a → idle (k a)) → idle (m ≫= k).
Proof.
  intros Hm HP Hk w. rewrite run_bind. specialize (Hm w). specialize (HP w).
  destruct (m w).1 as [a|e]; [|done].
  eapply untouched_trans; [done | by apply Hk, HP].
Qed.

Lemma idle_try m (handler : exn → option (M A)) :
  idle m → (∀ e h, handler e = Some h → idle h) → idle (try_except m handler).
Proof.
  intros Hm Hh w. rewrite run_try. specialize (Hm w).
  destruct (m w).1 as [a|e]; [done|].
  destruct (handler e) as [h|] eqn:He; [|done].
  eapply untouched_trans; [done | by eapply Hh].
Qed.

Lemma idle_if (b : bool) (m1 m2 : M A) : idle m1 → idle m2 → idle (if b then m1 else m2).
Proof. by destruct b. Qed.
End IdleRules.

Lemma idle_get_world : idle get_world.
Proof. intros w. apply untouched_refl. Qed.

Lemma idle_emit ev : probe_of ev = None → put_call ev = None → idle (emit ev).
Proof. intros Hv Hp w. by apply untouched_emit. Qed.

Lemma idle_io ev : probe_of ev = None → put_call ev = None → idle (io ev).
Proof.
  intros Hv Hp w. unfold io, emit, modify, get_world, mbind, M_bind, bind, raise; simpl.
  pose proof (untouched_emit w ev Hv Hp) as H1.
  destruct (faults w) as [|[e|] rest] eqn:Hf; simpl; [done|..];
    (eapply untouched_trans; [exact H1|]; apply untouched_faults; simpl;
     rewrite Hf; by apply suffix_cons_r).
Qed.

Lemma idle_set_buckets b : idle (modify (set_buckets (fun bs => {[b]} ∪ bs))).
Proof. intros w. apply untouched_buckets. Qed.

(** One step through a computation that uploads nothing. *)
Ltac idle_step :=
  lazymatch goal with
  | |- idle (mret _) => apply idle_ret
  | |- idle (ret _) => apply idle_ret
  | |- idle (raise _) => apply idle_raise
  | |- idle get_world => apply idle_get_world
  | |- idle (emit _) => by apply idle_emit
  | |- idle (io _) => by apply idle_io
  | |- idle (logger_info _) => by apply idle_emit
  | |- idle (logger_warning _) => by apply idle_emit
  | |- idle (logger_error _) => by apply idle_emit
  | |- idle (print _) => by apply idle_emit
  | |- idle (modify (set_buckets _)) => apply idle_set_buckets
  | |- idle (_ ≫= _) => apply idle_bind; [|intros]
  | |- idle (if ?b then _ else _) => first [apply idle_if | destruct b]
  | |- idle (match ?x with _ => _ end) => destruct x
  end.
Ltac idling := repeat idle_step.

Lemma idle_client_bucket_exists b : idle (client_bucket_exists b).
Proof. unfold client_bucket_exists. idling. Qed.

Lemma idle_client_make_bucket b : idle (client_make_bucket b).
Proof. unfold client_make_bucket. idling. Qed.

Lemma idle_for_each {X} (xs : list X) (body : X → M unit) :
  (∀ x, idle (body x)) → idle (for_each xs body).
Proof.
  intros Hb. induction xs as [|x xs IH]; simpl; [apply idle_ret|].
  apply idle_bind; [apply Hb | intros; apply IH].
Qed.

Lemma idle_MinIOFileUploader_init : idle MinIOFileUploader_init.
Proof.
  unfold MinIOFileUploader_init. apply idle_try.
  - idling.
  - intros e h [= <-]. idling.
Qed.

Lemma idle_ensure_bucket_exists self : idle (ensure_bucket_exists self).
Proof.
  unfold ensure_bucket_exists. apply idle_try.
  - apply idle_bind; [apply idle_client_bucket_exists|]. intros found.
    apply idle_bind; [|intros; idling].
    apply idle_if; [|idling].
    apply idle_bind; [apply idle_client_make_bucket|]. intros. idling.
  - intros [] h [= <-]. idling.
Qed.

Lemma idle_report res : idle (report res).
Proof.
  unfold report. do 3 (apply idle_bind; [idling | intros _]).
  apply idle_if; [|idling]. apply idle_bind; [idling | intros _].
  apply idle_for_each. intros [l r]. idling.
Qed.

Lemma idle_finish ok : idle (finish ok).
Proof. unfold finish. idling. Qed.

(** * What reaches the store *)

Lemma put_all_size os puts : (size (put_all os puts) ≤ size os + length puts)%nat.
Proof.
  revert os. induction puts as [|o puts IH]; intros os; simpl; [lia|].
  etrans; [apply IH|]. rewrite map_size_insert. destruct (os !! o.1); simpl; lia.
Qed.

Lemma put_all_dom os puts :
  dom (put_all os puts) = dom os ∪ list_to_set puts.*1.
Proof.
  revert os. induction puts as [|o puts IH]; intros os; simpl.
  - by rewrite (right_id_L ∅ (∪)).
  - rewrite IH, dom_insert_L. by rewrite (assoc_L (∪)), (comm_L (∪) {[o.1]}).
Qed.

Section StoreFacts.

Variable md5_hexdigest : string → string.
Variable format_file_size : Z → string.
Implicit Types (self : MinIOFileUploader) (w : world).

#[local] Abbreviation upload_file := (upload_file md5_hexdigest format_file_size).
#[local] Abbreviation upload_files_loop := (upload_files_loop md5_hexdigest format_file_size).
#[local] Abbreviation upload_files_batch := (upload_files_batch md5_hexdigest format_file_size).
#[local] Abbreviation upload_directory := (upload_directory md5_hexdigest format_file_size).
#[local] Abbreviation upload_outcomes := (upload_outcomes md5_hexdigest format_file_size).
#[local] Abbreviation object_of := (object_of md5_hexdigest).
#[local] Abbreviation stored := (stored md5_hexdigest).

(** The store after [upload_file], by what it returned. *)
Lemma upload_file_store_effect self l r w :
  buckets (upload_file self l r w).2 = buckets w
  ∧ match (upload_file self l r w).1 with
    | Return true =>
        objects (upload_file self l r w).2
        = <[(object_of self (today w) (l, r)).1 := l]> (objects w)
    | _ => objects (upload_file self l r w).2 = objects w
    end.
Proof.
  destruct w as [? ? ? fs0 ? ? bs os fl tr]. unfold object_of.
  destruct (fs0 !! l) as [[size [|]|entries]|] eqn:Hl;
    destruct (decide (bucket_name self ∈ bs)) as [Hb|Hb];
    run_program; unfold upload_file_except; run_program; simpl.
  all: destruct fl as [|[e|] fl]; simpl; rewrite ?Hl; simpl.
  all: try (destruct e; simpl; done).
  all: try done.
  all: try (destruct fl as [|[e|] fl]; simpl; rewrite ?Hl; simpl).
  all: try (destruct e; simpl; done).
  all: try (destruct fl as [|[e|] fl]; simpl; rewrite ?Hl; simpl; decide_bucket).
  all: try (destruct e; simpl; done).
  all: repeat (first [rewrite Hl | progress decide_bucket]; simpl); done.
Qed.

Lemma upload_file_today self l r w : today (upload_file self l r w).2 = today w.
Proof. by destruct (probes_upload_file md5_hexdigest format_file_size self l r w) as [[] _]. Qed.

Lemma stored_cons self d item (ok : bool) outcomes :
  stored self d ((item, ok) :: outcomes)
    = (if ok then [object_of self d item] else []) ++ stored self d outcomes.
Proof. unfold stored; simpl. by destruct ok. Qed.

Lemma stored_length self d outcomes :
  length (stored self d outcomes) = success (ResultReport outcomes).
Proof.
  induction outcomes as [|[item []] outcomes IH]; [done|..].
  - rewrite stored_cons, ResultReport_cons_true; simpl. by rewrite IH.
  - rewrite stored_cons, ResultReport_cons_false; simpl. by rewrite IH.
Qed.

Lemma upload_files_loop_store self items res w :
  objects (upload_files_loop self items res w).2
    = put_all (objects w) (stored self (today w) (upload_outcomes self items w))
  ∧ buckets (upload_files_loop self items res w).2 = buckets w.
Proof.
  revert res w. induction items as [|[l r] items IH]; intros res w; [done|].
  destruct (returns_upload_file md5_hexdigest format_file_size self l r w) as [ok Hok].
  rewrite (upload_outcomes_cons _ _ _ _ _ _ _ _ Hok), stored_cons.
  pose proof (upload_file_store_effect self l r w) as [Hbuckets Hobjects].
  pose proof (upload_file_today self l r w) as Htoday.
  rewrite Hok in Hobjects.
  change (upload_files_loop self ((l, r) :: items) res w) with
    ((upload_file self l r ≫= fun ok : bool =>
        if ok then
          upload_files_loop self items
            {| total := total res; success := success res + 1;
               failed := failed res; failed_files := failed_files res |}
        else
          upload_files_loop self items
            {| total := total res; success := success res;
               failed := failed res + 1;
               failed_files := failed_files res ++ [(l, r)] |}) w).
  rewrite run_bind, Hok.
  destruct ok;
    match goal with
    | |- context [objects (?f self items ?res' ?w').2] =>
        destruct (IH res' w') as [-> ->]
    end;
    rewrite Hobjects, Hbuckets, Htoday; done.
Qed.

(** After its loop [upload_files_batch] only writes to the log. *)
Lemma upload_files_batch_tail self items w :
  untouched
    (upload_files_loop self items
       {| total := length items; success := 0; failed := 0; failed_files := [] |}
       (batch_start items w)).2
    (upload_files_batch self items w).2.
Proof.
  unfold upload_files_batch, logger_info. rewrite run_emit_bind, run_bind.
  change (set_trace _ w) with (batch_start items w).
  destruct (returns_upload_files_loop md5_hexdigest format_file_size self items
              {| total := length items; success := 0; failed := 0; failed_files := [] |}
              (batch_start items w)) as [res Hres].
  rewrite Hres.
  match goal with |- untouched ?w1 (?m ?w1).2 => assert (Hidle : idle m); [|apply Hidle] end.
  apply idle_bind; [idling | intros _].
  apply idle_bind; [|intros; idling].
  apply idle_if; [|idling]. apply idle_bind; [idling | intros _].
  apply idle_for_each. intros [l r]. idling.
Qed.

(** The store after [upload_file]: the buckets are those it had; when
    the call returns true the local file is the object under the key of
    the relative path and of the day, in the bucket of the uploader, in
    the place of what that key named before, and every other key names
    what it named; when it returns false the store is as it was. *)
Theorem upload_file_puts_under_its_key self l r w :
  buckets (upload_file self l r w).2 = buckets w
  ∧ match (upload_file self l r w).1 with
    | Return true =>
        objects (upload_file self l r w).2
        = <[(bucket_name self, ComputeObjectKey md5_hexdigest (base_upload_path self) r (today w))
            := l]> (objects w)
    | Return false => objects (upload_file self l r w).2 = objects w
    | Raise _ => False
    end.
Proof.
  pose proof (upload_file_store_effect self l r w) as [Hbuckets Hobjects].
  destruct (returns_upload_file md5_hexdigest format_file_size self l r w) as [ok Hok].
  rewrite Hok in *. split; [done|]. by destruct ok.
Qed.

(** The store after a batch: the store it had after the puts of the items
    whose upload returned true, made in the order of the items, so that of
    two such items with one key the later is the one stored. The puts are
    as many as the successes the result counts; the keys of the store are
    those it had and those of the puts, and it has grown by no more
    objects than there were successes. *)
Theorem upload_files_batch_stores_successes self items w :
  let outcomes := upload_outcomes self items (batch_start items w) in
  let puts := stored self (today w) outcomes in
  objects (upload_files_batch self items w).2 = put_all (objects w) puts
  ∧ dom (objects (upload_files_batch self items w).2) = dom (objects w) ∪ list_to_set puts.*1
  ∧ ∃ res, (upload_files_batch self items w).1 = Return res
           ∧ length puts = success res
           ∧ (size (objects (upload_files_batch self items w).2)
              ≤ size (objects w) + success res)%nat.
Proof.
  intros outcomes puts.
  pose proof (upload_files_batch_tail self items w) as [_ _ _ Hobj].
  pose proof (upload_files_loop_store self items
                {| total := length items; success := 0; failed := 0; failed_files := [] |}
                (batch_start items w)) as [Hloop _].
  assert (Hobjects : objects (upload_files_batch self items w).2 = put_all (objects w) puts).
  { by rewrite Hobj, Hloop. }
  split; [done|]. split; [rewrite Hobjects; apply put_all_dom|].
  exists (ResultReport outcomes).
  split; [apply upload_files_batch_report|].
  assert (Hlen : length puts = success (ResultReport outcomes)) by apply stored_length.
  split; [done|]. rewrite Hobjects, <- Hlen. apply put_all_size.
Qed.

(** A local path that is no readable regular file: [upload_file] returns
    false without a call of the client, whatever faults are in store, and
    the store keeps its objects. *)
Theorem upload_file_refuses_before_the_client self l r w :
  OsPath.isfile w l && OsPath.access_R_OK w l = false →
  (upload_file self l r w).1 = Return false
  ∧ gateway_calls (new_events w (upload_file self l r w).2) = []
  ∧ objects (upload_file self l r w).2 = objects w.
Proof.
  destruct w as [? ? ? fs0 ? ? bs os fl tr]. intros Hl.
  unfold OsPath.isfile, OsPath.access_R_OK in Hl; simpl in Hl.
  unfold new_events. run_program; unfold upload_file_except; run_program; simpl.
  destruct fl as [|[e|] fl]; simpl; rewrite ?Hl; simpl.
  - split; [done|]. split; [|done]. by trace_tail.
  - destruct e; simpl; (split; [done|]; split; [|done]; by trace_tail).
  - split; [done|]. split; [|done]. by trace_tail.
Qed.

End StoreFacts.

(** * More on the bucket check *)

(** Without faults, a bucket that is missing is made: the check, then
    the creation, and the call returns true with the bucket in the
    store. *)
Theorem ensure_bucket_exists_creates (self : MinIOFileUploader) (w : world) :
  faults w = [] → bucket_name self ∉ buckets w →
  (ensure_bucket_exists self w).1 = Return true
  ∧ buckets (ensure_bucket_exists self w).2 = {[bucket_name self]} ∪ buckets w
  ∧ gateway_calls (new_events w (ensure_bucket_exists self w).2)
    = [EvBucketExists (bucket_name self); EvMakeBucket (bucket_name self)].
Proof.
  destruct w as [? ? ? ? ? ? bs ? fl tr]; simpl. intros -> Hout. run_ensure.
  decide_bucket. split; [done|]. split; [done|]. by trace_tail.
Qed.

(** What [ensure_bucket_exists] can end in: true, with the bucket in the
    store; false, with an error in the log and the buckets as they were;
    or an exception that is no [S3Error], the buckets as they were. The
    objects of the store are untouched in every case. *)
Theorem ensure_bucket_exists_outcomes (self : MinIOFileUploader) (w : world) :
  objects (ensure_bucket_exists self w).2 = objects w
  ∧ match (ensure_bucket_exists self w).1 with
    | Return true => bucket_name self ∈ buckets (ensure_bucket_exists self w).2
    | Return false =>
        error_logged (new_events w (ensure_bucket_exists self w).2)
        ∧ buckets (ensure_bucket_exists self w).2 = buckets w
    | Raise e =>
        is_S3Error e = false ∧ buckets (ensure_bucket_exists self w).2 = buckets w
    end.
Proof.
  split; [apply idle_ensure_bucket_exists|].
  destruct (ensure_bucket_exists self w).1 as [[|]|e] eqn:Hrun.
  - by apply ensure_bucket_exists_true.
  - revert Hrun. destruct w as [? ? ? ? ? ? bs ? fl tr]. run_ensure.
    assert (Hlog : ∀ evs msg, error_logged (drop (length tr) (tr ++ evs ++ [EvLog ERROR msg]))).
    { intros evs msg. rewrite drop_app_length. exists msg. set_solver. }
    destruct (decide (bucket_name self ∈ bs)) as [Hin|Hout];
      destruct fl as [|[e|] fl]; simpl; decide_bucket; try done.
    all: try (destruct e; simpl; try done; intros _; split; [|done];
              rewrite <- ?app_assoc; apply (Hlog [_])).
    destruct fl as [|[e|] fl]; simpl; decide_bucket; try done.
    destruct e; simpl; try done; intros _; split; [|done].
    rewrite <- ?app_assoc. apply (Hlog [_; _]).
  - revert Hrun. destruct w as [? ? ? ? ? ? bs ? fl tr]. run_ensure.
    destruct (decide (bucket_name self ∈ bs)) as [Hin|Hout];
      destruct fl as [|[e'|] fl]; simpl; decide_bucket; try done.
    all: try (destruct e'; simpl; try done; by intros [= <-]).
    destruct fl as [|[e'|] fl]; simpl; decide_bucket; try done.
    destruct e'; simpl; try done; by intros [= <-].
Qed.

(** Without faults the bucket check returns true. *)
Lemma ensure_bucket_exists_no_fault (self : MinIOFileUploader) (w : world) :
  faults w = [] → (ensure_bucket_exists self w).1 = Return true.
Proof.
  destruct w as [? ? ? ? ? ? bs ? fl tr]; simpl. intros ->. run_ensure.
  destruct (decide (bucket_name self ∈ bs)); by decide_bucket.
Qed.

Lemma MinIOFileUploader_init_raises w e :
  (MinIOFileUploader_init w).1 = Raise e → init_fault w = Some e.
Proof.
  unfold MinIOFileUploader_init. rewrite run_try. unfold get_world. rewrite run_bind.
  cbn [fst snd]. destruct (init_fault w); simpl; [|done]. by intros [= <-].
Qed.

Lemma MinIOFileUploader_init_returns w uploader :
  (MinIOFileUploader_init w).1 = Return uploader → uploader = configured_uploader w.
Proof.
  unfold MinIOFileUploader_init. rewrite run_try. unfold get_world. rewrite run_bind.
  cbn [fst snd]. destruct (init_fault w); simpl; [done|]. by intros [= <-].
Qed.

Lemma MinIOFileUploader_init_no_fault w uploader :
  (MinIOFileUploader_init w).1 = Return uploader → init_fault w = None.
Proof.
  unfold MinIOFileUploader_init. rewrite run_try. unfold get_world. rewrite run_bind.
  cbn [fst snd]. by destruct (init_fault w).
Qed.

Lemma MinIOFileUploader_init_faults w : faults (MinIOFileUploader_init w).2 = faults w.
Proof.
  unfold MinIOFileUploader_init. rewrite run_try. unfold get_world. rewrite run_bind.
  cbn [fst snd]. by destruct (init_fault w).
Qed.

(** A fault at the first call to the store: the bucket check does not
    return true. *)
Lemma ensure_bucket_exists_first_fault (self : MinIOFileUploader) (w : world) e rest :
  faults w = Some e :: rest → (ensure_bucket_exists self w).1 ≠ Return true.
Proof.
  destruct w as [? ? ? ? ? ? bs ? fl tr]; simpl. intros ->. run_ensure. by destruct e.
Qed.

(** The usage example of the uploader module never raises and uploads
    nothing; it ends with the bucket of the configured uploader in the
    store, or with an error in the log. *)
Theorem file_uploader_main_checks_the_bucket (w : world) :
  (file_uploader_main w).1 = Return ()
  ∧ untouched w (file_uploader_main w).2
  ∧ (bucket_name (configured_uploader w) ∈ buckets (file_uploader_main w).2
     ∨ error_logged (new_events w (file_uploader_main w).2)).
Proof.
  assert (Hidle : idle file_uploader_main).
  { unfold file_uploader_main. apply idle_try.
    - apply idle_bind; [apply idle_MinIOFileUploader_init|]. intros up.
      apply idle_bind; [apply idle_ensure_bucket_exists|]. intros. idling.
    - intros e h [= <-]. idling. }
  split; [|split; [apply Hidle|]].
  - assert (Hret : returns file_uploader_main); [|by destruct (Hret w) as [[] ->]].
    unfold file_uploader_main. apply returns_try. intros e. eexists. split; [done|].
    apply returns_logger_error.
  - unfold file_uploader_main. rewrite run_try, run_bind.
    pose proof (idle_MinIOFileUploader_init w) as [H1 _ _ _].
    pose proof (MinIOFileUploader_init_returns w) as Hup.
    destruct (MinIOFileUploader_init w) as [[up|e] w1]; cbn [fst snd] in *.
    2:{ right. unfold logger_error, emit, modify. simpl. by apply error_logged_after. }
    rewrite (Hup up eq_refl). clear Hup. set (self := configured_uploader w).
    rewrite run_bind.
    pose proof (idle_ensure_bucket_exists self w1) as [H2 _ _ _].
    pose proof (ensure_bucket_exists_true self w1) as Hb.
    assert (H12 : ∀ w2, evolves w1 w2 → evolves w w2) by (intros; by eapply evolves_trans).
    destruct (ensure_bucket_exists self w1) as [[[|]|e] w2]; cbn [fst snd negb] in *.
    + left. by apply Hb.
    + right. unfold logger_error. rewrite run_emit_bind. simpl.
      apply error_logged_after. by apply H12.
    + right. unfold logger_error, emit, modify. simpl.
      apply error_logged_after. by apply H12.
Qed.

(** * Entries of [--files] and their first colon *)

Lemma of_chars_app l1 l2 :
  PyStr.of_chars (l1 ++ l2) = PyStr.of_chars l1 +:+ PyStr.of_chars l2.
Proof.
  unfold PyStr.of_chars. induction l1 as [|c l1 IH]; [done|].
  simpl. rewrite IH. done.
Qed.

Lemma append_nil_r s : s +:+ "" = s.
Proof.
  induction s as [|c s IH]; [done|].
  change (String c (s +:+ "") = String c s). by rewrite IH.
Qed.

Lemma of_chars_reverse_cons c cur s :
  PyStr.of_chars (reverse (c :: cur)) +:+ s = PyStr.of_chars (reverse cur) +:+ String c s.
Proof. by rewrite reverse_cons, of_chars_app, append_assoc. Qed.

Lemma split1_go_cut sep cur l r :
  PyStr.contains sep l = false →
  PyStr.split1_go sep cur (l +:+ String sep r) = [PyStr.of_chars (reverse cur) +:+ l; r].
Proof.
  revert cur. induction l as [|c l IH]; intros cur Hl.
  - change ("" +:+ String sep r) with (String sep r). simpl.
    by rewrite Ascii.eqb_refl, append_nil_r.
  - change (String c l +:+ String sep r) with (String c (l +:+ String sep r)).
    simpl in *. apply orb_false_iff in Hl as [Hc Hl'].
    rewrite Hc, (IH _ Hl'). by rewrite of_chars_reverse_cons.
Qed.

Lemma split1_go_two sep cur s a b :
  PyStr.split1_go sep cur s = [a; b] →
  ∃ l, s = l +:+ String sep b ∧ PyStr.contains sep l = false
       ∧ a = PyStr.of_chars (reverse cur) +:+ l.
Proof.
  revert cur. induction s as [|c s IH]; intros cur; simpl; [done|].
  destruct (Ascii.eqb c sep) eqn:Hc.
  - apply Ascii.eqb_eq in Hc as ->. intros [= <- <-]. exists "".
    by rewrite append_nil_r.
  - intros Hs. destruct (IH _ Hs) as (l & -> & Hl & ->). exists (String c l).
    split; [done|]. split; [simpl; by rewrite Hc|]. by rewrite of_chars_reverse_cons.
Qed.

Lemma split1_go_no_sep sep cur s :
  PyStr.contains sep s = false → ∃ x, PyStr.split1_go sep cur s = [x].
Proof.
  revert cur. induction s as [|c s IH]; intros cur H; simpl in *; [eauto|].
  destruct (Ascii.eqb c sep); simpl in *; [done | by apply IH].
Qed.

(** The mapping of an entry is (l, r) exactly when the entry is l, a
    colon and r with no colon in l. *)
Lemma mapping_of_cut fm l r :
  mapping_of fm = Some (l, r) ↔ fm = l +:+ ":" +:+ r ∧ PyStr.contains ":" l = false.
Proof.
  unfold mapping_of, PyStr.split1. split.
  - destruct (PyStr.split1_go ":" [] fm) as [|a [|b [|c rest]]] eqn:Hs; try done.
    intros [= -> ->]. destruct (split1_go_two _ _ _ _ _ Hs) as (l' & -> & Hl & ->). done.
  - intros [-> Hl]. change (":" +:+ r) with (String ":" r).
    by rewrite (split1_go_cut ":" [] l r Hl).
Qed.

(** Unpacking an entry of [--files] gives the pair (l, r) exactly when
    the entry is l, a colon and r with no colon in l: the cut is at the
    first colon, so the local path of a mapping never has a colon, and the
    relative path is all that follows, colons included. The entries that
    cannot be unpacked are those without a colon. *)
Theorem unpack_mapping_first_colon fm l r w :
  ((unpack_mapping fm w).1 = Return (l, r)
   ↔ fm = l +:+ ":" +:+ r ∧ PyStr.contains ":" l = false)
  ∧ ((∃ e, (unpack_mapping fm w).1 = Raise e) ↔ PyStr.contains ":" fm = false).
Proof.
  split.
  - rewrite <- mapping_of_cut. unfold unpack_mapping, mapping_of.
    destruct (PyStr.split1 ":" fm) as [|a [|b [|c rest]]]; simpl;
      split; intros H; try discriminate H; congruence.
  - destruct (PyStr.contains ":" fm) eqn:Hc.
    + destruct (mapping_of_contains fm Hc) as (a & b & Hs & _).
      unfold unpack_mapping. rewrite Hs. split; [intros [e He]|]; done.
    + destruct (split1_go_no_sep ":" [] fm Hc) as [x Hx].
      unfold unpack_mapping, PyStr.split1. rewrite Hx. split; [done|]. intros _. by eexists.
Qed.

(** * The files of a directory upload *)

Lemma node_nested_ind (P : node → Prop) :
  (∀ size readable, P (File size readable)) →
  (∀ entries, Forall (fun e => P e.2) entries → P (Dir entries)) →
  ∀ n, P n.
Proof.
  intros Hfile Hdir. fix IH 1. intros [size readable|entries]; [apply Hfile|].
  apply Hdir. induction entries as [|[name n] es IHes]; constructor; [apply IH | apply IHes].
Qed.

(** [os.walk] lists every regular file below its top once, whatever is
    made of the root it is listed under. *)
Lemma walk_files_under {A} (g : string → string → A) fl n top :
  length (flat_map (fun '(root, dirs, files) => map (g root) files) (OsPath.walk fl top n))
  = files_under n.
Proof.
  revert top. induction n as [|entries IH] using node_nested_ind; intros top; [done|].
  cbn [OsPath.walk files_under flat_map]. rewrite length_app, length_map, length_fmap.
  induction IH as [|[name [size readable|sub]] es Hn Hes IHes]; [done|..].
  - rewrite filter_cons_True by done. cbn [length]. by rewrite <- IHes.
  - rewrite filter_cons_False by done. cbn -[OsPath.walk files_under flat_map filter].
    rewrite flat_map_app, length_app, Hn, <- IHes. cbn [snd]. lia.
Qed.

Lemma directory_mappings_files_under w dir base n :
  fs w !! dir = Some n → length (directory_mappings w dir base) = files_under n.
Proof.
  intros Hdir. unfold directory_mappings, OsPath.os_walk. rewrite Hdir.
  apply walk_files_under.
Qed.

Lemma files_below_Dir entries :
  files_below (Dir entries)
  = map at_top (filter (fun e => OsPath.is_dir_entry e = false) entries).*1
    ++ below entries.
Proof.
  cbn [files_below]. f_equal. unfold below.
  induction entries as [|[name [size readable|sub]] es IH]; [done|..]; simpl.
  - exact IH.
  - by rewrite IH.
Qed.

Lemma elem_of_top_files entries p :
  p ∈ map at_top (filter (fun e => OsPath.is_dir_entry e = false) entries).*1
  ↔ ∃ name size readable, p = ([], name) ∧ (name, File size readable) ∈ entries.
Proof.
  rewrite list_elem_of_In, in_map_iff. split.
  - intros (name & <- & Hin). apply list_elem_of_In, list_elem_of_fmap in Hin
      as ([name' [size readable|sub]] & -> & Hin); apply list_elem_of_filter in Hin as [Hd Hin];
      [|done]. by exists name', size, readable.
  - intros (name & size & readable & -> & Hin). exists name. split; [done|].
    apply list_elem_of_In, list_elem_of_fmap. exists (name, File size readable).
    split; [done|]. by apply list_elem_of_filter.
Qed.

Lemma elem_of_below es p :
  p ∈ below es
  ↔ ∃ name sub ds f, p = (name :: ds, f) ∧ (name, Dir sub) ∈ es
                     ∧ (ds, f) ∈ files_below (Dir sub).
Proof.
  unfold below. rewrite list_elem_of_In, in_flat_map. split.
  - intros ([name [size readable|sub]] & Hin & Hp); [done|]. simpl in Hp.
    apply in_map_iff in Hp as ([ds f] & <- & Hq).
    exists name, sub, ds, f. by rewrite !list_elem_of_In.
  - intros (name & sub & ds & f & -> & Hin & Hq). exists (name, Dir sub).
    split; [by apply list_elem_of_In|]. simpl. apply in_map_iff. exists (ds, f).
    split; [done | by apply list_elem_of_In].
Qed.

Lemma files_below_file_at n p : p ∈ files_below n ↔ file_at n p.
Proof.
  split.
  - revert p. induction n as [|entries IH] using node_nested_ind; intros p;
      [by intros ?%elem_of_nil|].
    rewrite files_below_Dir, elem_of_app, elem_of_top_files, elem_of_below.
    intros [(name & size & readable & -> & Hin)|(name & sub & ds & f & -> & Hin & Hq)].
    + by econstructor.
    + econstructor; [done|]. rewrite Forall_forall in IH. by apply (IH _ Hin).
  - intros H. induction H as [entries name size readable Hin|entries name sub ds f Hin _ IH];
      rewrite files_below_Dir, elem_of_app, elem_of_top_files, elem_of_below.
    + left. by exists name, size, readable.
    + right. by exists name, sub, ds, f.
Qed.

Lemma distinct_names_Dir es :
  distinct_names (Dir es) = true →
  NoDup es.*1 ∧ Forall (fun e => distinct_names e.2 = true) es.
Proof.
  cbn [distinct_names]. intros [Hnames Hall]%andb_true_iff.
  split; [by apply bool_decide_eq_true in Hnames|]. clear Hnames.
  induction es as [|[name n] es IH]; [done|].
  apply andb_true_iff in Hall as [Hn Hall]. constructor; [done | by apply IH].
Qed.

#[local] Instance under_inj name : Inj (=) (=) (under name).
Proof. intros [ds f] [ds' f']. unfold under; simpl. congruence. Qed.

#[local] Instance at_top_inj : Inj (=) (=) at_top.
Proof. intros name name'. unfold at_top. congruence. Qed.

Lemma below_cons name n es :
  below ((name, n) :: es)
  = match n with
    | File _ _ => below es
    | Dir _ => map (under name) (files_below n) ++ below es
    end.
Proof. by destruct n. Qed.

Lemma NoDup_files_below n : distinct_names n = true → NoDup (files_below n).
Proof.
  induction n as [|entries IH] using node_nested_ind; [intros; apply NoDup_nil_2|].
  intros [Hnames Hall]%distinct_names_Dir.
  rewrite files_below_Dir. apply NoDup_app. split; [|split].
  - apply (NoDup_fmap_2 at_top). eapply sublist_NoDup; [exact Hnames|].
    apply fmap_sublist, sublist_filter.
  - intros p (name & size & readable & -> & _)%elem_of_top_files
      (name' & sub & ds & f & Hp & _)%elem_of_below. discriminate Hp.
  - induction entries as [|[name n] es IHes]; [apply NoDup_nil_2|].
    apply NoDup_cons in Hnames as [Hname Hnames].
    apply Forall_cons in IH as [IHn IH]. apply Forall_cons in Hall as [Hn Hall].
    rewrite below_cons. destruct n as [size readable|sub]; [by apply IHes|].
    apply NoDup_app. split; [|split; [|by apply IHes]].
    + apply (NoDup_fmap_2 (under name)). by apply IHn.
    + intros p ([ds f] & -> & _)%list_elem_of_fmap
        (name' & sub' & ds' & f' & [= <- _ _] & Hin & _)%elem_of_below.
      apply Hname. apply list_elem_of_fmap. by exists (name, Dir sub').
Qed.

(** The mappings made of what [os.walk] yields are those of the files
    below its top, each made from the root that the directories leading
    to the file give when they are joined to the top one by one. *)
Lemma walk_files_below {A} (g : string → string → A) fl n top :
  flat_map (fun '(root, dirs, files) => map (g root) files) (OsPath.walk fl top n)
  = map (fun p => g (foldl (OsPath.join fl) top p.1) p.2) (files_below n).
Proof.
  revert top. induction n as [|entries IH] using node_nested_ind; intros top; [done|].
  rewrite files_below_Dir. cbn [OsPath.walk flat_map]. rewrite map_app, map_map.
  f_equal.
  { induction (filter _ entries) as [|e es IHes]; [done|]. simpl. by rewrite IHes. }
  induction IH as [|[name [size readable|sub]] es Hn Hes IHes]; [done|..].
  - by rewrite below_cons.
  - rewrite below_cons, map_app, map_map, flat_map_app, Hn. by rewrite IHes.
Qed.

Lemma directory_mappings_files_below w dir base n :
  fs w !! dir = Some n →
  directory_mappings w dir base
  = map (fun p => file_mapping w dir base (foldl (OsPath.join (os_name w)) dir p.1) p.2)
      (files_below n).
Proof.
  intros Hdir. unfold directory_mappings, OsPath.os_walk. rewrite Hdir.
  apply walk_files_below.
Qed.

Section DirectoryFacts.

Variable md5_hexdigest : string → string.
Variable format_file_size : Z → string.

#[local] Abbreviation upload_files_batch := (upload_files_batch md5_hexdigest format_file_size).
#[local] Abbreviation upload_directory := (upload_directory md5_hexdigest format_file_size).
#[local] Abbreviation upload_outcomes := (upload_outcomes md5_hexdigest format_file_size).

(** A directory upload is the batch of one mapping for each regular file
    below the directory, at any depth, in the order of [os.walk]: the
    local path of a mapping is the directory joined with the names that
    lead to the file and with the name of the file, and its relative path
    is that of the local path from the directory, behind the base
    relative path when there is one. The files listed are the regular
    files of the tree and no others, each once when no directory has two
    entries of one name. The local paths of the mappings are the paths
    probed, in this order; the total of the result is the number of the
    files, and each of them is counted as a success or as a failure. *)
Theorem upload_directory_covers_the_tree self dir base entries w :
  fs w !! dir = Some (Dir entries) →
  let items := directory_mappings w dir base in
  let tree := Dir entries in
  items.*1 = map (fun p => foldl (OsPath.join (os_name w)) dir (p.1 ++ [p.2])) (files_below tree)
  ∧ Forall (fun m =>
              m.2 = let rel := OsPath.relpath (os_name w) (getcwd w) m.1 dir in
                    if PyStr.truthy base
                    then PyStr.replace backslash slash (OsPath.join (os_name w) base rel)
                    else rel) items
  ∧ (∀ p, p ∈ files_below tree ↔ file_at tree p)
  ∧ (distinct_names tree = true → NoDup (files_below tree))
  ∧ length items = files_under tree
  ∧ validated (new_events w (upload_directory self dir base w).2) = items.*1
  ∧ ∃ res, (upload_directory self dir base w).1 = Return res
           ∧ total res = files_under tree
           ∧ success res + failed res = files_under tree.
Proof.
  intros Hdir items tree.
  assert (Hitems : items
            = map (fun p => file_mapping w dir base (foldl (OsPath.join (os_name w)) dir p.1) p.2)
                (files_below tree))
    by by apply directory_mappings_files_below.
  assert (Hlen : length items = files_under tree)
    by by apply directory_mappings_files_under.
  assert (Hrun : upload_directory self dir base w = upload_files_batch self items w).
  { unfold upload_directory, get_world. rewrite run_bind. cbn [fst snd].
    unfold OsPath.isdir. by rewrite Hdir. }
  split.
  { rewrite Hitems. clear. induction (files_below tree) as [|[ds f] ps IH]; [done|].
    rewrite !map_cons. f_equal; [by rewrite foldl_snoc | exact IH]. }
  split.
  { rewrite Hitems. apply Forall_fmap, Forall_forall. by intros [ds f] _. }
  split; [apply files_below_file_at|]. split; [apply NoDup_files_below|].
  split; [done|]. rewrite Hrun. split; [apply probes_upload_files_batch|].
  eexists. split; [apply upload_files_batch_report|].
  pose proof (upload_outcomes_items md5_hexdigest format_file_size self items
                (batch_start items w)) as Hout.
  apply (f_equal length) in Hout. rewrite length_fmap in Hout.
  rewrite ResultReport_counts. unfold ResultReport; simpl. by rewrite Hout.
Qed.

End DirectoryFacts.

(** * The command line *)

Lemma configured_uploader_evolves w w' :
  evolves w w' → configured_uploader w' = configured_uploader w.
Proof.
  intros Hev. unfold configured_uploader, minio_config, os_getenv.
  by rewrite (ev_environ _ _ Hev).
Qed.

Section MainFacts.

Variable md5_hexdigest : string → string.
Variable format_file_size : Z → string.
Implicit Types (self uploader : MinIOFileUploader) (w : world) (a : args).

#[local] Abbreviation upload_file := (upload_file md5_hexdigest format_file_size).
#[local] Abbreviation upload_files_batch := (upload_files_batch md5_hexdigest format_file_size).
#[local] Abbreviation upload_directory := (upload_directory md5_hexdigest format_file_size).
#[local] Abbreviation single_mode := (single_mode md5_hexdigest format_file_size).
#[local] Abbreviation batch_mode := (batch_mode md5_hexdigest format_file_size).
#[local] Abbreviation directory_mode := (directory_mode md5_hexdigest format_file_size).
#[local] Abbreviation dispatch := (dispatch md5_hexdigest format_file_size).
#[local] Abbreviation main := (main md5_hexdigest format_file_size).

(** [main] ends before it looks at the mode, with false and nothing
    uploaded, which takes a client that cannot be built or a fault in
    store; or it goes on with the branch of the mode from a world in which
    the bucket of the configured uploader exists; what the branch returns
    is what [main] returns, and an exception of the branch is turned into
    false, with nothing more uploaded. *)
Lemma main_dispatch a w :
  ((main a w).1 = Return false ∧ untouched w (main a w).2
   ∧ (is_Some (init_fault w) ∨ faults w ≠ []))
  ∨ ∃ w', untouched w w'
          ∧ (init_fault w = None ∧ ∀ e rest, faults w ≠ Some e :: rest)
          ∧ bucket_name (configured_uploader w) ∈ buckets w'
          ∧ match (dispatch (configured_uploader w) a w').1 with
            | Return ok => main a w = (Return ok, (dispatch (configured_uploader w) a w').2)
            | Raise e =>
                (main a w).1 = Return false
                ∧ untouched (dispatch (configured_uploader w) a w').2 (main a w).2
            end.
Proof.
  unfold main. rewrite run_try.
  unfold print. rewrite run_emit_bind. set (w1 := set_trace _ w).
  assert (H1 : untouched w w1) by by apply untouched_emit.
  rewrite run_bind.
  pose proof (idle_MinIOFileUploader_init w1) as H2.
  pose proof (MinIOFileUploader_init_returns w1) as Hup.
  pose proof (MinIOFileUploader_init_raises w1) as Hraise.
  pose proof (MinIOFileUploader_init_no_fault w1) as Hnone.
  pose proof (MinIOFileUploader_init_faults w1) as Hfaults.
  destruct (MinIOFileUploader_init w1) as [[uploader|e] w2]; cbn [fst snd] in *.
  2:{ left. split; [done|]. split.
      - eapply untouched_trans; [by eapply untouched_trans|].
        match goal with
        | |- untouched ?x (?m ?x).2 => assert (Hidle : idle m); [idling | apply Hidle]
        end.
      - left. exists e. exact (Hraise e eq_refl). }
  rewrite (Hup uploader eq_refl). specialize (Hnone uploader eq_refl). clear Hup Hraise.
  change (configured_uploader w1) with (configured_uploader w).
  set (up := configured_uploader w).
  rewrite run_emit_bind. set (w3 := set_trace _ w2).
  assert (H3 : untouched w w3).
  { eapply untouched_trans; [|by apply untouched_emit]. by eapply untouched_trans. }
  rewrite run_bind.
  pose proof (idle_ensure_bucket_exists up w3) as H4.
  pose proof (ensure_bucket_exists_true up w3) as Hb.
  pose proof (ensure_bucket_exists_first_fault up w3) as Hfirst.
  assert (Hfault : (ensure_bucket_exists up w3).1 ≠ Return true → faults w ≠ []).
  { intros Hne Hf. apply Hne, ensure_bucket_exists_no_fault.
    eapply evolves_no_fault; [apply H3 | done]. }
  destruct (ensure_bucket_exists up w3) as [[[|]|e] w4]; cbn [fst snd negb] in *.
  - right. exists w4. split; [by eapply untouched_trans|]. split.
    { split; [done|]. intros e rest Hf. by apply (Hfirst e rest); [rewrite <- Hf|]. }
    split; [by apply Hb|].
    change (match arg_mode a with
            | single => single_mode up a
            | batch => batch_mode up a
            | directory => directory_mode up a
            end) with (dispatch up a).
    destruct (dispatch up a w4) as [[ok|e] w5]; cbn [fst snd]; [done|].
    split; [done|].
    match goal with
    | |- untouched ?x (?m ?x).2 => assert (Hidle : idle m); [idling | apply Hidle]
    end.
  - left. rewrite run_emit_bind. simpl. split; [done|]. split; [|right; by apply Hfault].
    eapply untouched_trans; [|by apply untouched_emit]. by eapply untouched_trans.
  - left. split; [done|]. split; [|right; by apply Hfault].
    eapply untouched_trans; [by eapply untouched_trans|].
    match goal with
    | |- untouched ?x (?m ?x).2 => assert (Hidle : idle m); [idling | apply Hidle]
    end.
Qed.

Lemma rejected_arguments_evolves w w' a :
  evolves w w' → rejected_arguments w' a = rejected_arguments w a.
Proof.
  intros Hev. unfold rejected_arguments, OsPath.exists_, OsPath.isdir.
  by rewrite (ev_fs _ _ Hev).
Qed.

Ltac prints_only :=
  split; [done|];
  repeat first [apply untouched_refl | eapply untouched_trans; [|by apply untouched_emit]].

(** The branch of the mode on arguments that are turned down. *)
Lemma dispatch_rejected uploader a w :
  rejected_arguments w a = true →
  (dispatch uploader a w).1 = Return false ∧ untouched w (dispatch uploader a w).2.
Proof.
  unfold dispatch, rejected_arguments.
  destruct (arg_mode a).
  - unfold single_mode. destruct (absent (arg_file a) || absent (arg_relative a)); simpl.
    + intros _. prints_only.
    + intros Hex. unfold get_world. rewrite run_bind. cbn [fst snd]. rewrite Hex. simpl.
      prints_only.
  - unfold batch_mode. destruct (arg_files a) as [[|fm files]|]; try done.
    + intros _. simpl. prints_only.
    + intros _. simpl. prints_only.
  - unfold directory_mode. destruct (absent (arg_directory a)); simpl.
    + intros _. prints_only.
    + intros Hex. unfold get_world. rewrite run_bind. cbn [fst snd]. rewrite Hex. simpl.
      prints_only.
Qed.

(** Arguments that are turned down: a missing or empty flag of the mode,
    or a file or directory that is not there. [main] returns false, and
    nothing is probed, put or stored. *)
Theorem main_rejects_arguments a w :
  rejected_arguments w a = true →
  (main a w).1 = Return false ∧ untouched w (main a w).2.
Proof.
  intros Hrej.
  destruct (main_dispatch a w) as [(Hret & Hun & _)|(w' & Hun & _ & _ & Hrun)]; [done|].
  destruct (dispatch_rejected (configured_uploader w) a w') as [Hfalse Hun'].
  { by rewrite (rejected_arguments_evolves _ _ _ (un_evolves _ _ Hun)). }
  rewrite Hfalse in Hrun. rewrite Hrun. split; [done|]. by eapply untouched_trans.
Qed.

(** ** A client that cannot be built, a store that fails *)

(** When the client cannot be built, or the first call to the store
    runs into a fault, of whatever class, [main] returns false with an
    error in the log, and nothing is probed, put or stored. *)
Theorem main_fails_without_the_bucket a w :
  is_Some (init_fault w) ∨ (∃ e rest, faults w = Some e :: rest) →
  (main a w).1 = Return false
  ∧ untouched w (main a w).2
  ∧ error_logged (new_events w (main a w).2).
Proof.
  intros Hcause.
  destruct (main_dispatch a w) as [(Hret & Hun & _)|(w' & _ & [Hini Hfl] & _)].
  - split; [done|]. split; [done|]. clear Hret Hun.
    destruct w as [? ? ? ? ? ini bs ? fl tr]; simpl in Hcause.
    destruct Hcause as [[e He]|(e & rest & Hf)]; subst.
    + unfold new_events, main, MinIOFileUploader_init. run_program. simpl.
      rewrite <- !app_assoc. rewrite drop_app_length. eexists. repeat constructor.
    + unfold new_events, main, MinIOFileUploader_init, ensure_bucket_exists. run_program.
      destruct ini as [e0|]; simpl.
      * rewrite <- !app_assoc. rewrite drop_app_length. eexists. repeat constructor.
      * destruct e; simpl; rewrite <- !app_assoc; rewrite drop_app_length;
          eexists; repeat constructor.
  - exfalso. destruct Hcause as [[e He]|(e & rest & Hf)]; [congruence|].
    by apply (Hfl e rest).
Qed.

(** ** An entry of a batch without its colon *)

Lemma idle_collect_turn fm acc : idle (collect_turn fm acc).
Proof.
  unfold collect_turn. apply idle_try.
  - apply idle_bind.
    + unfold unpack_mapping. idling.
    + intros [l r]. idling.
  - intros [] h [= <-]. idling.
Qed.

Lemma idle_collect_mappings files acc : idle (collect_mappings files acc).
Proof.
  revert acc. induction files as [|fm files IH]; intros acc; simpl; [idling|].
  apply idle_bind; [apply idle_collect_turn|]. intros [acc'|ok]; [apply IH | idling].
Qed.

Lemma collect_turn_malformed fm acc w :
  PyStr.contains ":" fm = false → (collect_turn fm acc w).1 = Return (ReturnNow false).
Proof.
  intros Hno. destruct (split1_go_no_sep ":" [] fm Hno) as [x Hx].
  unfold collect_turn, unpack_mapping, PyStr.split1. rewrite Hx. done.
Qed.

(** An entry without a colon ends the loop, whatever the other entries
    are. *)
Lemma collect_mappings_malformed files acc w :
  Exists (fun fm => PyStr.contains ":" fm = false) files →
  (collect_mappings files acc w).1 = Return None.
Proof.
  revert acc w. induction files as [|fm files IH]; intros acc w Hex.
  - by apply Exists_nil in Hex.
  - simpl. rewrite run_bind.
    destruct (PyStr.contains ":" fm) eqn:Hfm.
    + destruct (mapping_of_contains fm Hfm) as (l & r & Hs & _).
      destruct (collect_turn_mapping fm l r acc w Hs) as (w1 & -> & _).
      cbn [fst snd]. apply IH. apply Exists_cons in Hex as [Hex|Hex]; [congruence | done].
    + by rewrite (collect_turn_malformed fm acc w Hfm).
Qed.

(** A batch run with an entry that has no colon: [main] returns false,
    and nothing is probed, put or stored, whatever the other entries
    are. *)
Theorem main_rejects_malformed_entry a files w :
  arg_mode a = batch → arg_files a = Some files →
  Exists (fun fm => PyStr.contains ":" fm = false) files →
  (main a w).1 = Return false ∧ untouched w (main a w).2.
Proof.
  intros Hmode Hfiles Hex.
  destruct (main_dispatch a w) as [(Hret & Hun & _)|(w' & Hun & _ & _ & Hrun)]; [done|].
  assert (Hbranch : (dispatch (configured_uploader w) a w').1 = Return false
                    ∧ untouched w' (dispatch (configured_uploader w) a w').2).
  { unfold dispatch. rewrite Hmode. unfold batch_mode. rewrite Hfiles.
    destruct files as [|fm files]; [by apply Exists_nil in Hex|].
    rewrite run_bind.
    pose proof (idle_collect_mappings (fm :: files) [] w') as Hidle.
    rewrite (collect_mappings_malformed (fm :: files) [] w' Hex). done. }
  destruct Hbranch as [Hfalse Hun']. rewrite Hfalse in Hrun. rewrite Hrun.
  split; [done|]. by eapply untouched_trans.
Qed.

(** ** One file, from the command line to the store *)

#[local] Abbreviation object_of := (object_of md5_hexdigest).

Lemma finish_store ok w :
  objects (finish ok w).2 = objects w ∧ buckets (finish ok w).2 = buckets w.
Proof. by destruct ok. Qed.

(** The single-file branch on a readable file, in a world without faults
    whose bucket exists. *)
Lemma single_mode_uploads uploader a w f r size :
  arg_file a = Some f → f ≠ "" → arg_relative a = Some r → r ≠ "" →
  fs w !! f = Some (File size true) →
  faults w = [] → bucket_name uploader ∈ buckets w →
  (single_mode uploader a w).1 = Return true
  ∧ objects (single_mode uploader a w).2
    = <[(object_of uploader (today w) (f, r)).1 := f]> (objects w)
  ∧ buckets (single_mode uploader a w).2 = buckets w.
Proof.
  intros Hf Hfne Hr Hrne Hfile Hfaults Hbucket.
  unfold single_mode. rewrite Hf, Hr.
  assert (Hargs : absent (Some f) || absent (Some r) = false).
  { destruct f, r; done. }
  rewrite Hargs. unfold get_world. rewrite run_bind. cbn [fst snd].
  change (value (Some f)) with f. change (value (Some r)) with r.
  assert (Hex : OsPath.exists_ w f = true).
  { unfold OsPath.exists_. rewrite Hfile. by apply bool_decide_eq_true. }
  rewrite Hex. cbn [negb].
  unfold upload_single_file, print. rewrite run_bind, !run_emit_bind.
  set (w0 := set_trace _ (set_trace _ (set_trace _ w))).
  pose proof (upload_file_success md5_hexdigest format_file_size uploader f r w0 size
                Hfaults Hbucket Hfile) as Hok.
  pose proof (upload_file_store_effect md5_hexdigest format_file_size uploader f r w0)
    as [Hbk Hobj].
  rewrite Hok in Hobj. rewrite run_bind, Hok. cbn [fst snd]. rewrite run_emit_bind.
  split; [apply run_finish|].
  unfold ret; cbn [fst snd].
  match goal with
  | |- context [objects (finish true ?x).2] => destruct (finish_store true x) as [-> ->]
  end.
  done.
Qed.

(** A single-file run on a readable file, when the client can be built
    and no call runs into a fault: [main] returns true, and the store is
    the one it was with the file under the key of its relative path and
    of the day, in the bucket of the configuration, in the place of what
    that key named before, if anything; [main] has made the bucket if it
    was missing. *)
Theorem main_single_uploads_the_file a w f r size :
  arg_mode a = single →
  arg_file a = Some f → f ≠ "" → arg_relative a = Some r → r ≠ "" →
  fs w !! f = Some (File size true) →
  init_fault w = None → faults w = [] →
  let uploader := configured_uploader w in
  let key := ComputeObjectKey md5_hexdigest (base_upload_path uploader) r (today w) in
  (main a w).1 = Return true
  ∧ objects (main a w).2 = <[(bucket_name uploader, key) := f]> (objects w)
  ∧ objects (main a w).2 !! (bucket_name uploader, key) = Some f
  ∧ bucket_name uploader ∈ buckets (main a w).2.
Proof.
  intros Hmode Hf Hfne Hr Hrne Hfile Hini Hfaults uploader key. subst uploader key.
  destruct (main_dispatch a w) as [(_ & _ & [[e He]|Hne])|(w' & Hun & _ & Hb & Hrun)];
    [congruence | done |].
  destruct Hun as [Hev _ _ Hobj].
  destruct (single_mode_uploads (configured_uploader w) a w' f r size)
    as (Hok & Hstore & Hbuckets); try done.
  { by rewrite (ev_fs _ _ Hev). }
  { by eapply evolves_no_fault. }
  unfold dispatch in Hrun. rewrite Hmode, Hok in Hrun. rewrite Hrun. cbn [fst snd].
  assert (Hobjects : objects (single_mode (configured_uploader w) a w').2
            = <[(bucket_name (configured_uploader w),
                 ComputeObjectKey md5_hexdigest (base_upload_path (configured_uploader w)) r
                   (today w)) := f]> (objects w)).
  { by rewrite Hstore, Hobj, (ev_today _ _ Hev). }
  split; [done|]. split; [done|]. split.
  - rewrite Hobjects. apply lookup_insert_eq.
  - by rewrite Hbuckets.
Qed.

(** ** A directory without files *)

Lemma directory_mappings_nil w dir base n :
  fs w !! dir = Some n → files_under n = 0 → directory_mappings w dir base = [].
Proof.
  intros Hdir Hnone. apply length_zero_iff_nil.
  by rewrite (directory_mappings_files_under w dir base n Hdir).
Qed.

Ltac log_only :=
  repeat (eapply untouched_trans; [|by apply untouched_emit]); apply untouched_refl.

(** The directory branch on a directory with no regular file below it. *)
Lemma directory_mode_no_files uploader a w d entries :
  arg_directory a = Some d → d ≠ "" →
  fs w !! d = Some (Dir entries) → files_under (Dir entries) = 0 →
  (directory_mode uploader a w).1 = Return true
  ∧ untouched w (directory_mode uploader a w).2.
Proof.
  intros Hd Hdne Hdir Hnone. unfold directory_mode. rewrite Hd.
  assert (Harg : absent (Some d) = false) by by destruct d.
  rewrite Harg. unfold get_world. rewrite run_bind. cbn [fst snd].
  change (value (Some d)) with d.
  assert (His : OsPath.isdir w d = true) by (unfold OsPath.isdir; by rewrite Hdir).
  rewrite His. cbn [negb].
  unfold main_upload_directory, print. rewrite run_bind, run_emit_bind.
  set (w1 := set_trace _ w).
  assert (Hrun : ∀ w2, fs w2 = fs w →
            upload_directory uploader d (arg_base_relative a) w2
            = upload_files_batch uploader [] w2).
  { intros w2 Hfs. unfold upload_directory, get_world. rewrite run_bind. cbn [fst snd].
    unfold OsPath.isdir. rewrite Hfs, Hdir. cbn [negb].
    rewrite (directory_mappings_nil w2 d _ (Dir entries)); [done | by rewrite Hfs | done]. }
  destruct (PyStr.truthy (arg_base_relative a)).
  - rewrite run_emit_bind, run_bind, Hrun by done. split; [done|]. simpl. log_only.
  - change ((ret () ≫= ?k) w1) with (k () w1). cbn beta.
    rewrite run_bind, Hrun by done. split; [done|]. simpl. log_only.
Qed.

(** A directory run on a directory with no regular file below it, when
    the client can be built and no call runs into a fault: [main] returns
    true, the value of a run whose uploads all went through, and nothing
    is probed, put or stored. *)
Theorem main_directory_without_files a w d entries :
  arg_mode a = directory → arg_directory a = Some d → d ≠ "" →
  fs w !! d = Some (Dir entries) → files_under (Dir entries) = 0 →
  init_fault w = None → faults w = [] →
  (main a w).1 = Return true ∧ untouched w (main a w).2.
Proof.
  intros Hmode Hd Hdne Hdir Hnone Hini Hfaults.
  destruct (main_dispatch a w) as [(_ & _ & [[e He]|Hne])|(w' & Hun & _ & Hb & Hrun)];
    [congruence | done |].
  destruct (directory_mode_no_files (configured_uploader w) a w' d entries)
    as (Hok & Hidle); try done.
  { by rewrite (ev_fs _ _ (un_evolves _ _ Hun)). }
  unfold dispatch in Hrun. rewrite Hmode, Hok in Hrun. rewrite Hrun. cbn [fst snd].
  split; [done|]. by eapply untouched_trans.
Qed.

End MainFacts.

(** * Instances of the conditional theorems *)


Lemma C2_uploads_never_raise_witness :
  (faults Samples.refusing_store = replicate 2 None ++ [Some (S3Error "AccessDenied")]
   ∧ OsPath.isfile Samples.refusing_store "/in/a.txt"
       && OsPath.access_R_OK Samples.refusing_store "/in/a.txt" = true
   ∧ OsPath.isfile Samples.linux_host "/in/b.txt"
       && OsPath.access_R_OK Samples.linux_host "/in/b.txt" = false)
  ∧ ((upload_file Samples.digest Samples.size_text Samples.uploader "/in/a.txt" "docs/a.txt"
        Samples.refusing_store).1 = Return false
     ∧ EvLog ERROR "MinIO上传失败: AccessDenied"
         ∈ new_events Samples.refusing_store
             (upload_file Samples.digest Samples.size_text Samples.uploader
                "/in/a.txt" "docs/a.txt" Samples.refusing_store).2)
  ∧ (upload_file Samples.digest Samples.size_text Samples.uploader "/in/b.txt" "docs/b.txt"
       Samples.linux_host).1 = Return false.
Proof.
  split; [repeat split; reflexivity|]. split.
  - apply (proj1 (proj2 (proj2 (C2_uploads_never_raise Samples.digest Samples.size_text
                                  Samples.uploader "/in/a.txt" "docs/a.txt" [] "" ""
                                  Samples.refusing_store)))
             2%nat (S3Error "AccessDenied") []);
      [lia | reflexivity | right; reflexivity].
  - apply (proj1 (proj2 (C2_uploads_never_raise Samples.digest Samples.size_text
                           Samples.uploader "/in/b.txt" "docs/b.txt" [] "" ""
                           Samples.linux_host))).
    reflexivity.
Defined.

Lemma C6_no_create_for_existing_bucket_witness :
  bucket_name Samples.uploader ∈ buckets Samples.linux_host
  ∧ gateway_calls (new_events Samples.linux_host
                     (ensure_bucket_exists Samples.uploader Samples.linux_host).2)
    = [EvBucketExists "data"].
Proof.
  assert (H : bucket_name Samples.uploader ∈ buckets Samples.linux_host).
  { simpl. apply elem_of_singleton. reflexivity. }
  split; [exact H|].
  exact (proj1 (proj1 (C6_no_create_for_existing_bucket Samples.uploader Samples.linux_host) H)).
Defined.

Lemma C7_not_a_directory_witness :
  OsPath.isdir Samples.linux_host "/in/a.txt" = false
  ∧ (upload_directory Samples.digest Samples.size_text Samples.uploader "/in/a.txt" ""
       Samples.linux_host).1
    = Return {| total := 0; success := 0; failed := 0; failed_files := [] |}.
Proof.
  split; [reflexivity|].
  apply (C7_not_a_directory Samples.digest Samples.size_text Samples.uploader
           "/in/a.txt" "" Samples.linux_host).
  reflexivity.
Defined.

Lemma C9_object_key_form_witness :
  decimal (partition_date (today Samples.linux_host)) = 20250904%Z
  ∧ ComputeObjectKey Samples.digest "archive" "docs\c.pdf" (today Samples.linux_host)
    = "archive/20250904/d41d8cd98f00b204e9800998ecf8427e.pdf".
Proof.
  split; [|reflexivity].
  apply (proj1 (proj2 (proj2 (C9_object_key_form Samples.digest "archive" "docs\c.pdf"
                                (today Samples.linux_host)))));
    simpl; lia.
Defined.

Lemma C10_missing_entries_are_skipped_witness :
  OsPath.exists_ Samples.linux_host "/in/b.txt" = false
  ∧ existing_mappings Samples.linux_host ["/in/a.txt:docs/a.txt"; "/in/b.txt:docs/b.txt"]
    = [("/in/a.txt", "docs/a.txt")]
  ∧ (("/in/b.txt", "docs/b.txt")
       ∉ existing_mappings Samples.linux_host ["/in/a.txt:docs/a.txt"; "/in/b.txt:docs/b.txt"])
  ∧ (main Samples.digest Samples.size_text Samples.batch_args Samples.linux_host).1
    = Return true
  ∧ exit_code true = 0%Z.
Proof.
  split; [reflexivity|]. split; [reflexivity|]. split; [|split; reflexivity].
  apply (proj1 (proj2 (C10_missing_entries_are_skipped Samples.digest Samples.size_text
                         Samples.uploader Samples.batch_args
                         ["/in/a.txt:docs/a.txt"; "/in/b.txt:docs/b.txt"]
                         Samples.linux_host eq_refl eq_refl
                         ltac:(discriminate)
                         ltac:(repeat constructor)))).
  reflexivity.
Defined.

Lemma directory_mappings_normalised_witness :
  PyStr.truthy "backup" = true
  ∧ Forall (fun m => PyStr.contains backslash m.2 = false)
      (directory_mappings Samples.windows_host "data" "backup").
Proof.
  split; [reflexivity|].
  apply (directory_mappings_normalised Samples.windows_host "data" "backup"). reflexivity.
Defined.

Lemma upload_file_refuses_before_the_client_witness :
  OsPath.isfile Samples.linux_host "/in/b.txt"
    && OsPath.access_R_OK Samples.linux_host "/in/b.txt" = false
  ∧ (upload_file Samples.digest Samples.size_text Samples.uploader "/in/b.txt" "docs/b.txt"
       Samples.linux_host).1 = Return false.
Proof.
  split; [reflexivity|].
  apply (upload_file_refuses_before_the_client Samples.digest Samples.size_text
           Samples.uploader "/in/b.txt" "docs/b.txt" Samples.linux_host).
  reflexivity.
Defined.

Lemma ensure_bucket_exists_creates_witness :
  (faults Samples.windows_host_no_bucket = []
   ∧ bucket_name Samples.uploader ∉ buckets Samples.windows_host_no_bucket)
  ∧ (ensure_bucket_exists Samples.uploader Samples.windows_host_no_bucket).1 = Return true.
Proof.
  assert (H : bucket_name Samples.uploader ∉ buckets Samples.windows_host_no_bucket).
  { simpl. apply not_elem_of_empty. }
  split; [split; [reflexivity | exact H]|].
  apply (ensure_bucket_exists_creates Samples.uploader Samples.windows_host_no_bucket);
    [reflexivity | exact H].
Defined.

Lemma main_rejects_arguments_witness :
  rejected_arguments Samples.linux_host Samples.missing_file_args = true
  ∧ (main Samples.digest Samples.size_text Samples.missing_file_args Samples.linux_host).1
    = Return false.
Proof.
  split; [reflexivity|].
  apply (main_rejects_arguments Samples.digest Samples.size_text
           Samples.missing_file_args Samples.linux_host).
  reflexivity.
Defined.

Lemma main_fails_without_the_bucket_witness :
  faults Samples.unreachable_store
    = [Some (OtherException "MaxRetryError" "Connection refused")]
  ∧ (main Samples.digest Samples.size_text Samples.single_args Samples.unreachable_store).1
    = Return false.
Proof.
  split; [reflexivity|].
  apply (main_fails_without_the_bucket Samples.digest Samples.size_text
           Samples.single_args Samples.unreachable_store).
  right. eexists _, _. reflexivity.
Defined.

Lemma main_rejects_malformed_entry_witness :
  PyStr.contains ":" "/in/c.pdf" = false
  ∧ (main Samples.digest Samples.size_text Samples.malformed_args Samples.linux_host).1
    = Return false.
Proof.
  split; [reflexivity|].
  apply (main_rejects_malformed_entry Samples.digest Samples.size_text
           Samples.malformed_args ["/in/a.txt:docs/a.txt"; "/in/c.pdf"] Samples.linux_host);
    [reflexivity | reflexivity |].
  apply Exists_cons_tl, Exists_cons_hd. reflexivity.
Defined.

Lemma main_single_uploads_the_file_witness :
  fs Samples.linux_host !! "/in/a.txt" = Some (File 5 true)
  ∧ (main Samples.digest Samples.size_text Samples.single_args Samples.linux_host).1
    = Return true
  ∧ objects (main Samples.digest Samples.size_text Samples.single_args Samples.linux_host).2
    = {[ ("data", "20250904/d41d8cd98f00b204e9800998ecf8427e.txt") := "/in/a.txt" ]}.
Proof.
  split; [reflexivity|].
  destruct (main_single_uploads_the_file Samples.digest Samples.size_text
              Samples.single_args Samples.linux_host "/in/a.txt" "docs/a.txt" 5%Z
              eq_refl eq_refl ltac:(discriminate) eq_refl ltac:(discriminate)
              eq_refl eq_refl eq_refl) as (Hok & Hobjects & _).
  split; [exact Hok | exact Hobjects].
Defined.

Lemma upload_directory_covers_the_tree_witness :
  fs Samples.photos_host !! "/photos" = Some (Dir Samples.photos)
  ∧ directory_mappings Samples.photos_host "/photos" "backup"
    = [("/photos/a.jpg", "backup/a.jpg");
       ("/photos/z.txt", "backup/z.txt");
       ("/photos/2024/b.jpg", "backup/2024/b.jpg");
       ("/photos/2024/raw/c.raw", "backup/2024/raw/c.raw")]
  ∧ (directory_mappings Samples.photos_host "/photos" "backup").*1
    = ["/photos/a.jpg"; "/photos/z.txt"; "/photos/2024/b.jpg"; "/photos/2024/raw/c.raw"]
  ∧ NoDup (files_below (Dir Samples.photos))
  ∧ length (directory_mappings Samples.photos_host "/photos" "backup") = 4.
Proof.
  split; [reflexivity|]. split; [reflexivity|].
  destruct (upload_directory_covers_the_tree Samples.digest Samples.size_text
              Samples.uploader "/photos" "backup" Samples.photos Samples.photos_host
              eq_refl) as (Hpaths & _ & _ & Hnodup & Hlength & _).
  split; [exact Hpaths|]. split; [exact (Hnodup eq_refl) | exact Hlength].
Defined.

Lemma main_directory_without_files_witness :
  files_under (Dir [("old", Dir [])]) = 0
  ∧ (main Samples.digest Samples.size_text Samples.spool_args Samples.spool_host).1
    = Return true.
Proof.
  split; [reflexivity|].
  apply (main_directory_without_files Samples.digest Samples.size_text
           Samples.spool_args Samples.spool_host "/spool" [("old", Dir [])]
           eq_refl eq_refl ltac:(discriminate) eq_refl eq_refl eq_refl eq_refl).
Defined.
